(** * Multi-schema data fetcher: grouped streaming writer and run summary

    A shallow embedding of [src/multi_schema_data_fetcher.py]
    ([MultiSchemaFetcher.fetch_from_schema], the nested [write_row] and
    [MultiSchemaFetcher.fetch_all_schemas]) and the properties of the
    grouped CSV output and of the run summary; then of the functions
    around them: [get_schema_credentials], [save_results], [main], and
    the statistics collectors of [src/collect_schema_stats.py] and
    [src/multi_schema_stats_runner.py].

    Modelling conventions.
    - A scalar coming out of a result set is [None], an [int] or a [str].
    - A Python [dict] whose iteration order is never observed (every use
      goes through [sorted], [sum], [get] or [in]) is a [gmap].
    - A Python exception is a value of [exn]; code that may raise returns
      in the sum [exn + A] and a [try]/[except] is written out.
    - The CSV layer is modelled up to the list of cells handed to the
      underlying [csv.writer] (what [DictWriter._dict_to_list] builds).
    - Opening a file for writing and creating the output directory may
      raise, depending on the path, and so may the creation of the thread
      pool, depending on its size; writing to and closing an open file do
      not raise. Log lines and the progress timer are not observed; the
      [sorted] call that feeds the closing log loop is kept, since it can
      raise.
    - The files of a run are the file objects it opened, each with the
      records written through it; they are the files on disk when no two
      objects share a path. *)

From Stdlib Require Import Ascii.
From stdpp Require Import gmap strings list fin_maps sorting pretty.

Local Open Scope string_scope.
Local Open Scope list_scope.

(** ** Python values *)

Inductive value : Type :=
  | VNone
  | VInt (z : Z)
  | VStr (s : string).

#[global] Instance value_eq_dec : EqDecision value.
Proof. solve_decision. Defined.

Definition value_to_sum (v : value) : unit + (Z + string) :=
  match v with
  | VNone => inl tt
  | VInt z => inr (inl z)
  | VStr s => inr (inr s)
  end.

Definition value_of_sum (x : unit + (Z + string)) : value :=
  match x with
  | inl _ => VNone
  | inr (inl z) => VInt z
  | inr (inr s) => VStr s
  end.

#[global] Instance value_countable : Countable value.
Proof.
  apply (inj_countable' value_to_sum value_of_sum).
  by intros [| |].
Defined.

(** [str(v)], as an f-string interpolates it. *)
Definition py_str (v : value) : string :=
  match v with
  | VNone => "None"
  | VInt z => pretty z
  | VStr s => s
  end.

(** The three Python types of a scalar; [<] is only defined inside one. *)
Inductive py_type : Type := TNone | TInt | TStr.

#[global] Instance py_type_eq_dec : EqDecision py_type.
Proof. solve_decision. Defined.

Definition type_of (v : value) : py_type :=
  match v with
  | VNone => TNone
  | VInt _ => TInt
  | VStr _ => TStr
  end.

(** ** Exceptions *)

Inductive exn_class : Type :=
  | PyMySQLError      (* pymysql.err.Error and its subclasses *)
  | OSError
  | KeyError
  | TypeError
  | OtherException.

#[global] Instance exn_class_eq_dec : EqDecision exn_class.
Proof. solve_decision. Defined.

(** [exn_msg] is [str(e)]. *)
Record exn : Type := Exn { exn_cls : exn_class; exn_msg : string }.

(** ** Rows *)

Abbreviation row := (gmap string value).

(** [d.get(k, dflt)] *)
Definition dict_get {V} (d : gmap string V) (k : string) (dflt : V) : V :=
  default dflt (d !! k).

(** [d1.update(d2)]: the entries of [d2] win. *)
Definition dict_update {V} (d1 d2 : gmap string V) : gmap string V := d2 ∪ d1.

(** [d.keys()], in some order. *)
Definition dict_keys {V} (d : gmap string V) : list string := (map_to_list d).*1.

(** [sorted(l)] on a list of [str]: code-point order, which on UTF-8 encoded
    strings is the byte-wise lexicographic order [String.le]. *)
Definition sorted (l : list string) : list string := merge_sort String.le l.

(** Truthiness of an [Optional[str]] argument: [None] and [''] are false. *)
Definition truthy (o : option string) : bool :=
  match o with
  | Some s => negb (String.eqb s "")
  | None => false
  end.

(** ** Configuration of a run: the keyword arguments of [fetch_all_schemas] *)

Record options : Type := Options {
  group_column : option string;
  output_dir : string;
  single_file_name : option string
}.

(** The name held by an [Optional[str]] argument once it is known truthy. *)
Definition the (o : option string) : string := default "" o.

(** Lines 255-262 of [write_row]. *)
Definition group_value_of (o : options) (data_row : row) : value :=
  if truthy (single_file_name o) then VStr "all"
  else if truthy (group_column o)
       then dict_get data_row (the (group_column o)) (VStr "unknown")
       else VStr "all".

(** Lines 267-273 of [write_row]. *)
Definition filename_of (o : options) (group_value : value) : string :=
  if truthy (single_file_name o) then the (single_file_name o)
  else if truthy (group_column o)
       then the (group_column o) +:+ "_" +:+ py_str group_value +:+ ".csv"
       else "schema_results.csv".

Fixpoint ends_with_slash (s : string) : bool :=
  match s with
  | EmptyString => false
  | String c EmptyString => bool_decide (c = "/"%char)
  | String _ s' => ends_with_slash s'
  end.

Definition starts_with_slash (s : string) : bool :=
  match s with
  | String c _ => bool_decide (c = "/"%char)
  | EmptyString => false
  end.

(** [os.path.join(a, b)] for two components ([posixpath.join]). *)
Definition os_path_join (a b : string) : string :=
  if starts_with_slash b then b
  else if String.eqb a "" || ends_with_slash a then a +:+ b
  else a +:+ "/" +:+ b.

(** ** A state and exception monad

    [M S A] is a computation over a mutable store [S] that either returns
    an [A] or raises; the store keeps what was written before the raise. *)

Definition M (S A : Type) : Type := S → (exn + A) * S.

Definition ret {S A} (a : A) : M S A := λ st, (inr a, st).

Definition bind {S A B} (m : M S A) (k : A → M S B) : M S B :=
  λ st, match m st with
        | (inr a, st') => k a st'
        | (inl e, st') => (inl e, st')
        end.

Definition raise {S A} (e : exn) : M S A := λ st, (inl e, st).

Definition gets {S A} (f : S → A) : M S A := λ st, (inr (f st), st).

Definition modify {S} (f : S → S) : M S unit := λ st, (inr tt, f st).

(** [try: m except Exception as e: h e] *)
Definition try_except {S A} (m : M S A) (h : exn → M S A) : M S A :=
  λ st, match m st with
        | (inl e, st') => h e st'
        | r => r
        end.

(** A fallible primitive that does not touch the store. *)
Definition lift {S A} (r : exn + A) : M S A :=
  match r with
  | inl e => raise e
  | inr a => ret a
  end.

(** [d[k]]: raises [KeyError]; [str] of a [KeyError] is the [repr] of the key. *)
Definition subscript {S K V} `{Countable K} (repr : K → string)
    (d : S → gmap K V) (k : K) : M S V :=
  λ st, match d st !! k with
        | Some v => (inr v, st)
        | None => (inl (Exn KeyError (repr k)), st)
        end.

(** [for x in l: body x] *)
Fixpoint for_each {S A} (l : list A) (body : A → M S unit) : M S unit :=
  match l with
  | [] => ret tt
  | x :: l' => bind (body x) (λ _, for_each l' body)
  end.

Declare Scope py_scope.
Delimit Scope py_scope with py.
Notation "x <- m ;; k" := (bind m (λ x, k))
  (at level 100, m at next level, right associativity) : py_scope.
Notation "m ;;; k" := (bind m (λ _, k))
  (at level 100, right associativity) : py_scope.

(** [repr] of a scalar, for the message of a [KeyError]. *)
Definition py_repr (v : value) : string :=
  match v with
  | VNone => "None"
  | VInt z => pretty z
  | VStr s => "'" +:+ s +:+ "'"
  end.

(** ** Output files and the writer registry *)

(** A file object opened with mode ['w']: the path it was opened on, the
    records written so far, and whether [close] was called. *)
Record file : Type := File {
  f_path : string;
  f_lines : list (list value);
  f_closed : bool
}.

(** A [csv.DictWriter(f, fieldnames=..., extrasaction='ignore')]; the file
    object is named by its index in the table of opened files. The default
    [restval] is [''] . *)
Record DictWriter : Type := MkDictWriter {
  dw_file : nat;
  dw_fieldnames : list string
}.

Definition restval : value := VStr "".

(** The four dictionaries of lines 244-247, and the files opened so far. *)
Record registry : Type := Registry {
  group_writers : gmap value DictWriter;
  group_fieldnames : gmap value (list string);
  group_row_counts : gmap value nat;
  open_files : gmap value nat;
  files : list file
}.

Definition empty_registry : registry := Registry ∅ ∅ ∅ ∅ [].

Definition set_group_writers (f : gmap value DictWriter → gmap value DictWriter)
    (r : registry) : registry :=
  Registry (f (group_writers r)) (group_fieldnames r) (group_row_counts r)
           (open_files r) (files r).

Definition set_group_fieldnames (f : gmap value (list string) → gmap value (list string))
    (r : registry) : registry :=
  Registry (group_writers r) (f (group_fieldnames r)) (group_row_counts r)
           (open_files r) (files r).

Definition set_group_row_counts (f : gmap value nat → gmap value nat)
    (r : registry) : registry :=
  Registry (group_writers r) (group_fieldnames r) (f (group_row_counts r))
           (open_files r) (files r).

Definition set_open_files (f : gmap value nat → gmap value nat)
    (r : registry) : registry :=
  Registry (group_writers r) (group_fieldnames r) (group_row_counts r)
           (f (open_files r)) (files r).

Definition set_files (f : list file → list file) (r : registry) : registry :=
  Registry (group_writers r) (group_fieldnames r) (group_row_counts r)
           (open_files r) (f (files r)).

(** [open(path, 'w', newline='')]: [open_error path] is the exception the
    operating system answers with, if any; otherwise a fresh, empty file
    object is returned. The table lists file objects with what was
    written through each; a path opened twice gives two objects, and what
    the disk then holds under that path is not modelled: the records of
    an object are the content of its file when no other object shares
    its path. *)
Definition open_w (open_error : string → option exn) (path : string) : M registry nat :=
  λ st, match open_error path with
        | Some e => (inl e, st)
        | None => (inr (length (files st)),
                   set_files (λ fs, fs ++ [File path [] false]) st)
        end.

Definition append_line (cells : list value) (f : file) : file :=
  File (f_path f) (f_lines f ++ [cells]) (f_closed f).

(** The underlying [csv.writer(f).writerow(cells)]. Writing to a closed
    file raises [ValueError]. *)
Definition csv_writerow (h : nat) (cells : list value) : M registry unit :=
  λ st, match files st !! h with
        | Some f =>
            if f_closed f
            then (inl (Exn OtherException "I/O operation on closed file."), st)
            else (inr tt, set_files (alter (append_line cells) h) st)
        | None => (inl (Exn OtherException "I/O operation on closed file."), st)
        end.

(** [DictWriter._dict_to_list] with [extrasaction='ignore']:
    [rowdict.get(key, restval) for key in fieldnames]. *)
Definition dict_to_list (fieldnames : list string) (rowdict : row) : list value :=
  (λ key, dict_get rowdict key restval) <$> fieldnames.

Definition writerow (w : DictWriter) (rowdict : row) : M registry unit :=
  csv_writerow (dw_file w) (dict_to_list (dw_fieldnames w) rowdict).

(** [DictWriter.writeheader]: [writerow(dict(zip(fieldnames, fieldnames)))]. *)
Definition header_line (fieldnames : list string) : list value :=
  VStr <$> fieldnames.

Definition writeheader (w : DictWriter) : M registry unit :=
  csv_writerow (dw_file w) (header_line (dw_fieldnames w)).

(** Line 253-254: [row = {'schema': schema_name}; row.update(data_row)]. *)
Definition make_row (schema_name : string) (data_row : row) : row :=
  dict_update {[ "schema" := VStr schema_name ]} data_row.

(** Line 281. *)
Definition fieldnames_of (r : row) : list string :=
  "schema" :: sorted (filter (λ k, k ≠ "schema") (dict_keys r)).

Local Open Scope py_scope.

(** [write_row], lines 249-297 (the milestone log line is not observed). *)
Definition write_row (open_error : string → option exn) (o : options)
    (schema_name : string) (data_row : row) : M registry unit :=
  let row := make_row schema_name data_row in
  let group_value := group_value_of o data_row in
  gw <- gets group_writers ;;
  (match gw !! group_value with
   | None =>
       let filename := filename_of o group_value in
       let output_file := os_path_join (output_dir o) filename in
       f <- open_w open_error output_file ;;
       modify (set_open_files <[group_value := f]>) ;;;
       modify (set_group_row_counts <[group_value := 0]>)
   | Some _ => ret tt
   end) ;;;
  gf <- gets group_fieldnames ;;
  (match gf !! group_value with
   | None =>
       let fieldnames := fieldnames_of row in
       modify (set_group_fieldnames <[group_value := fieldnames]>) ;;;
       f <- subscript py_repr open_files group_value ;;
       modify (set_group_writers <[group_value := MkDictWriter f fieldnames]>) ;;;
       w <- subscript py_repr group_writers group_value ;;
       writeheader w
   | Some _ => ret tt
   end) ;;;
  w <- subscript py_repr group_writers group_value ;;
  writerow w row ;;;
  c <- subscript py_repr group_row_counts group_value ;;
  modify (set_group_row_counts <[group_value := c + 1]>).

(** ** Sources and the database client *)

(** One row of [get_schema_credentials]: the four selected columns. *)
Record credentials : Type := Credentials {
  database_password : string;
  database_name : string;
  database_user : string;
  server_name : string
}.

(** What a cursor offers after [cursor.execute(query)]: [description]
    ([None] for a statement without a result set), [fetchall()] and
    [close()]. *)
Record result_set : Type := ResultSet {
  rs_description : option (list string);
  rs_fetchall : exn + list (list value);
  rs_close : option exn
}.

Record connection : Type := Connection {
  conn_execute : string → exn + result_set;
  conn_close : option exn
}.

(** Everything outside the process: the registry database behind
    [get_schema_credentials], the servers behind [pymysql.connect], the
    file system behind [open] and behind [os.makedirs], and the two
    readings of the clock that bracket a run (in microseconds). *)
Record environment : Type := Environment {
  get_schema_credentials : exn + list credentials;
  pymysql_connect : credentials → exn + connection;
  open_error : string → option exn;
  makedirs_error : string → option exn;
  start_time : Z;
  end_time : Z
}.

(** [os.makedirs(path, exist_ok=True)]: the empty path always raises
    [FileNotFoundError]; for any other path [makedirs_error] is the
    exception the operating system answers with, if any. *)
Definition os_makedirs (env : environment) (path : string) : option exn :=
  if String.eqb path ""
  then Some (Exn OSError "[Errno 2] No such file or directory: ''")
  else makedirs_error env path.

(** [ThreadPoolExecutor(max_workers=n)]: raises [ValueError] unless
    [n] is positive. *)
Definition thread_pool (max_workers : Z) : option exn :=
  if (max_workers <=? 0)%Z
  then Some (Exn OtherException "max_workers must be greater than 0")
  else None.

(** ** Per-source results *)

(** The dictionary returned by [fetch_from_schema], tagged by its
    ['status']: ['success'] with ['schema'], ['row_count'] and ['data'],
    or ['error'] with ['schema'] and ['error']. *)
Inductive fetch_result : Type :=
  | Success (schema : string) (row_count : nat) (data : list row)
  | Error (schema : string) (error : string).

Definition result_schema (r : fetch_result) : string :=
  match r with
  | Success s _ _ => s
  | Error s _ => s
  end.

Definition is_success (r : fetch_result) : bool :=
  match r with
  | Success _ _ _ => true
  | Error _ _ => false
  end.

(** ** The table of active workers *)

Inductive phase : Type := Connecting | Querying.

Record thread_info : Type := ThreadInfo {
  ti_schema : string;
  ti_status : phase;
  ti_start_time : string
}.

Abbreviation threads := (gmap string thread_info).

Definition set_status (p : phase) (t : thread_info) : thread_info :=
  ThreadInfo (ti_schema t) p (ti_start_time t).

(** [dict(zip(columns, row))]: [zip] stops at the shorter argument and a
    repeated column keeps its last value. *)
Definition dict_of_pairs (l : list (string * value)) : row :=
  foldl (λ d kv, <[kv.1 := kv.2]> d) ∅ l.

Definition is_pymysql_error (e : exn) : bool :=
  bool_decide (exn_cls e = PyMySQLError).

Definition connection_timeout : Z := 15.

(** [repr] of a [str] key, for the message of a [KeyError]. *)
Definition str_repr (s : string) : string := "'" +:+ s +:+ "'".

Section Worker.
(** The servers the worker talks to. *)
Variable env : environment.
(** [active_threads] is shared with the other workers: [others k] is
    what they do to it after this worker leaves its [k]-th critical
    section (counted from 0) and before it enters the next one. *)
Variable others : nat → threads → threads.

Definition interleave (k : nat) : M threads unit := modify (others k).

(** [if thread_name in self.active_threads: del ...] under the lock. *)
Definition clean_up (thread_name : string) : M threads unit :=
  modify (delete thread_name).

(** [fetch_from_schema], lines 93-181. [now] is the reading of
    [datetime.now().isoformat()] at line 114. *)
Definition fetch_from_schema (creds : credentials) (query : string)
    (now : string) : M threads fetch_result :=
  let schema_name := database_name creds in
  let thread_name := "Worker-" +:+ schema_name in
  try_except
    (modify <[thread_name := ThreadInfo schema_name Connecting now]> ;;;
     interleave 0 ;;;
     match pymysql_connect env creds with
     | inl e =>
         if is_pymysql_error e then
           clean_up thread_name ;;;
           ret (Error schema_name
                  ("Connection timeout after " +:+ pretty connection_timeout
                     +:+ "s: " +:+ exn_msg e))
         else raise e
     | inr conn =>
         t <- subscript str_repr id thread_name ;;
         modify <[thread_name := set_status Querying t]> ;;;
         interleave 1 ;;;
         cursor <- lift (conn_execute conn query) ;;
         columns <- match rs_description cursor with
                    | Some d => ret d
                    | None => raise (Exn TypeError
                                       "'NoneType' object is not iterable")
                    end ;;
         rows <- lift (rs_fetchall cursor) ;;
         let data := (λ r, dict_of_pairs (zip columns r)) <$> rows in
         lift (from_option inl (inr tt) (rs_close cursor)) ;;;
         lift (from_option inl (inr tt) (conn_close conn)) ;;;
         clean_up thread_name ;;;
         ret (Success schema_name (length data) data)
     end)
    (λ e,
       clean_up thread_name ;;;
       ret (Error schema_name (exn_msg e))).
End Worker.

(** ** The run: dispatch, completion loop, summary *)

(** A completed future: the schema name it is filed under in
    [future_to_schema], and what [future.result()] gives. *)
Record future : Type := Future {
  fut_schema : string;
  fut_outcome : exn + fetch_result
}.

(** What the thread pool decides: for the [i]-th submitted task, how the
    other workers interfere with its view of [active_threads], the table
    as it finds it, and its clock reading; and the order in which
    [as_completed] hands the futures back. *)
Record schedule : Type := Schedule {
  task_others : nat → nat → threads → threads;
  task_threads : nat → threads;
  task_now : nat → string;
  as_completed : list future → list future
}.

(** [executor.submit(self.fetch_from_schema, creds, query)], run to
    completion (lines 308-311). *)
Definition submit (env : environment) (sched : schedule) (query : string)
    (i : nat) (creds : credentials) : future :=
  Future (database_name creds)
         (fetch_from_schema env (task_others sched i) creds query
            (task_now sched i) (task_threads sched i)).1.

(** The variables the completion loop updates: [success_count],
    [error_count], [self.errors] and the writer registry. *)
Record tally : Type := Tally {
  success_count : nat;
  error_count : nat;
  errors : list fetch_result;
  writer : registry
}.

(** The body of the completion loop, lines 315-335. *)
Definition process_future (open_error : string → option exn) (o : options)
    (t : tally) (fut : future) : tally :=
  let schema_name := fut_schema fut in
  match fut_outcome fut with
  | inr (Success _ _ data) =>
      match for_each data (write_row open_error o schema_name) (writer t) with
      | (inr _, w) =>
          Tally (success_count t + 1) (error_count t) (errors t) w
      | (inl e, w) =>
          Tally (success_count t + 1) (error_count t + 1)
                (errors t ++ [Error schema_name (exn_msg e)]) w
      end
  | inr (Error _ _ as result) =>
      Tally (success_count t) (error_count t + 1) (errors t ++ [result]) (writer t)
  | inl e =>
      Tally (success_count t) (error_count t + 1)
            (errors t ++ [Error schema_name (exn_msg e)]) (writer t)
  end.

Definition close_file (h : nat) (fs : list file) : list file :=
  alter (λ f, File (f_path f) (f_lines f) true) h fs.

(** Lines 338-340: [for f in open_files.values(): f.close()]. *)
Definition close_all (r : registry) : registry :=
  set_files (λ fs, foldr close_file fs (map_to_list (open_files r)).*2) r.

(** [sum(d.values())] *)
Definition sum_values (d : gmap value nat) : nat :=
  sum_list (map_to_list d).*2.

(** Whether [sorted] can order a list of keys: Python compares two scalars
    with [<] only when they have the same type, and any sort of two or
    more keys of different types meets such a comparison. *)
Definition same_type_keys (l : list value) : bool :=
  match l with
  | [] => true
  | v :: l' => forallb (λ w, bool_decide (type_of w = type_of v)) l'
  end.

(** Lines 355-356: [for group_value, count in sorted(group_row_counts.items())]
    with a log line as body. The keys of a dictionary are distinct, so
    the counts are never compared. The message of the [TypeError] names
    the two types met first; only its beginning is kept. *)
Definition log_group_counts (counts : gmap value nat) : exn + unit :=
  if same_type_keys (map_to_list counts).*1 then inr tt
  else inl (Exn TypeError "'<' not supported between instances").

(** The dictionary built at lines 358-365. [duration_seconds] is kept as
    the difference of the two clock readings, in microseconds. *)
Record run_summary : Type := RunSummary {
  total_schemas : nat;
  successful : nat;
  failed : nat;
  duration_seconds : Z;
  total_rows_written : nat;
  summary_errors : list fetch_result
}.

(** [fetch_all_schemas], lines 222-367. [max_workers] is
    [self.max_workers] and [self_errors] is [self.errors] on entry ([[]]
    on a fresh fetcher). The result comes with the final values of the
    loop variables and of the registry. The three steps before the loop
    that can raise do so before any file is opened: the list of sources
    (line 234), [os.makedirs] (line 239) and the creation of the thread
    pool (line 306). *)
Definition fetch_all_schemas (env : environment) (sched : schedule)
    (max_workers : Z) (self_errors : list fetch_result) (query : string)
    (o : options) : (exn + run_summary) * tally :=
  match get_schema_credentials env with
  | inl e => (inl e, Tally 0 0 self_errors empty_registry)
  | inr credentials_list =>
      match os_makedirs env (output_dir o) with
      | Some e => (inl e, Tally 0 0 self_errors empty_registry)
      | None =>
          match thread_pool max_workers with
          | Some e => (inl e, Tally 0 0 self_errors empty_registry)
          | None =>
              let future_to_schema :=
                imap (submit env sched query) credentials_list in
              let t := foldl (process_future (open_error env) o)
                             (Tally 0 0 self_errors empty_registry)
                             (as_completed sched future_to_schema) in
              let t := Tally (success_count t) (error_count t) (errors t)
                             (close_all (writer t)) in
              let duration := (end_time env - start_time env)%Z in
              let total_rows := sum_values (group_row_counts (writer t)) in
              match log_group_counts (group_row_counts (writer t)) with
              | inl e => (inl e, t)
              | inr _ =>
                  (inr (RunSummary (length credentials_list) (success_count t)
                          (error_count t) duration total_rows (errors t)), t)
              end
          end
      end
  end.

(** ** Vocabulary of the statements *)

(** One invocation [write_row(schema_name, data_row)]. *)
Definition call : Type := string * row.

Definition call_row (c : call) : row := make_row c.1 c.2.

Definition call_group (o : options) (c : call) : value := group_value_of o c.2.

(** The path a group's file is opened on (lines 267-276). *)
Definition path_of (o : options) (g : value) : string :=
  os_path_join (output_dir o) (filename_of o g).

(** The record [writerow] builds for a call under a given header. *)
Definition record_of (fn : list string) (c : call) : list value :=
  dict_to_list fn (call_row c).

(** [steps st tr st']: some sequence of [write_row] invocations leads from
    [st] to [st'], and [tr] lists, in order, those that returned normally,
    that is, the rows written. *)
Inductive steps (open_error : string → option exn) (o : options)
    : registry → list call → registry → Prop :=
  | steps_refl st : steps open_error o st [] st
  | steps_ok st tr st1 s r st2 :
      steps open_error o st tr st1 →
      write_row open_error o s r st1 = (inr tt, st2) →
      steps open_error o st (tr ++ [(s, r)]) st2
  | steps_raise st tr st1 s r e st2 :
      steps open_error o st tr st1 →
      write_row open_error o s r st1 = (inl e, st2) →
      steps open_error o st tr st2.

(** States of the registry that a run can be in, with the rows written. *)
Definition reaches (open_error : string → option exn) (o : options)
    (tr : list call) (st : registry) : Prop :=
  steps open_error o empty_registry tr st.

(** The rows written to group [g], in order. *)
Definition written_to (o : options) (g : value) (tr : list call) : list call :=
  filter (λ c, call_group o c = g) tr.

(** What the registry holds for a group once rows [c0 :: cs] were written
    to it: the header is that of [c0], the file starts with the header
    line and continues with one record per row, and it is still open. *)
Definition group_holds (o : options) (st : registry) (g : value)
    (cs : list call) : Prop :=
  match cs with
  | [] =>
      group_writers st !! g = None ∧ group_fieldnames st !! g = None
      ∧ group_row_counts st !! g = None ∧ open_files st !! g = None
  | c0 :: _ =>
      let fn := fieldnames_of (call_row c0) in
      ∃ h,
        group_writers st !! g = Some (MkDictWriter h fn)
        ∧ group_fieldnames st !! g = Some fn
        ∧ group_row_counts st !! g = Some (length cs)
        ∧ open_files st !! g = Some h
        ∧ files st !! h =
            Some (File (path_of o g) (header_line fn :: (record_of fn <$> cs)) false)
  end.

Record reg_inv (o : options) (tr : list call) (st : registry) : Prop := RegInv {
  inv_groups : ∀ g, group_holds o st g (written_to o g tr);
  inv_handles : ∀ h, h < length (files st) → ∃ g, open_files st !! g = Some h;
  inv_inj : ∀ g1 g2 h,
    open_files st !! g1 = Some h → open_files st !! g2 = Some h → g1 = g2
}.

(** The futures of a run, in submission order (the values of
    [future_to_schema]). *)
Definition run_futures (env : environment) (sched : schedule) (query : string)
    (credentials_list : list credentials) : list future :=
  imap (submit env sched query) credentials_list.

(** A source succeeded when its future holds a ['success'] result. *)
Definition future_success (fut : future) : bool :=
  match fut_outcome fut with
  | inr r => is_success r
  | inl _ => false
  end.

(** The rows a source returned, as the calls of [write_row] they lead to. *)
Definition future_calls (fut : future) : list call :=
  match fut_outcome fut with
  | inr (Success _ _ data) => pair (fut_schema fut) <$> data
  | _ => []
  end.

(** The entry of [self.errors] a failed source leads to. *)
Definition future_error (fut : future) : option fetch_result :=
  match fut_outcome fut with
  | inr (Success _ _ _) => None
  | inr (Error _ _ as r) => Some r
  | inl e => Some (Error (fut_schema fut) (exn_msg e))
  end.

(** The ['row_count'] a source reports, 0 for a failed one. *)
Definition future_row_count (fut : future) : nat :=
  match fut_outcome fut with
  | inr (Success _ n _) => n
  | _ => 0
  end.

(** Number of failed sources, and sum of the row counts returned by the
    successful ones. *)
Definition sources_failed (futs : list future) : nat :=
  length (filter (λ fut, future_success fut = false) futs).

Definition sources_succeeded (futs : list future) : nat :=
  length (filter (λ fut, future_success fut = true) futs).

Definition rows_returned (futs : list future) : nat :=
  sum_list_with future_row_count futs.

(** ** The replay path: [save_results] *)

(** A result dictionary as [save_results] reads it: [result.get('schema')],
    [result.get('status')] and, when present, [result['data']]. *)
Record saved_result : Type := SavedResult {
  sr_schema : option string;
  sr_status : option string;
  sr_data : option (list row)
}.

(** The dictionaries built by [fetch_from_schema] and by the handler of
    line 331, read that way. *)
Definition result_dict (r : fetch_result) : saved_result :=
  match r with
  | Success s _ data => SavedResult (Some s) (Some "success") (Some data)
  | Error s _ => SavedResult (Some s) (Some "error") None
  end.

(** The values a summary dictionary holds: numbers and lists of result
    dictionaries. *)
Inductive pyobj : Type :=
  | PNum (z : Z)
  | PList (l : list saved_result).

(** [bool(x)] *)
Definition py_truthy (x : pyobj) : bool :=
  match x with
  | PNum z => negb (Z.eqb z 0)
  | PList l => negb (bool_decide (l = []))
  end.

(** The dictionary literal of lines 358-365. *)
Definition summary_dict (s : run_summary) : gmap string pyobj :=
  <["total_schemas" := PNum (Z.of_nat (total_schemas s))]>
  (<["successful" := PNum (Z.of_nat (successful s))]>
  (<["failed" := PNum (Z.of_nat (failed s))]>
  (<["duration_seconds" := PNum (duration_seconds s)]>
  (<["total_rows_written" := PNum (Z.of_nat (total_rows_written s))]>
  (<["errors" := PList (result_dict <$> summary_errors s)]> ∅))))).

(** Line 397: [result.get('status') == 'success' and 'data' in result]. *)
Definition has_rows (result : saved_result) : bool :=
  bool_decide (sr_status result = Some "success")
  && bool_decide (is_Some (sr_data result)).

(** The body of the [try] of [save_results], lines 378-452, with the
    early return of line 382 and [os.makedirs] at line 384. Its four
    dictionaries are local and start empty; the statements of lines 399-438
    are those of [write_row], lines 253-292, word for word, and [row_count]
    only feeds log lines. *)
Definition save_results_body (env : environment)
    (summary : gmap string pyobj) (o : options) : M registry unit :=
  let results := dict_get summary "results" (PList []) in
  if negb (py_truthy results) then ret tt
  else
    lift (from_option inl (inr tt) (os_makedirs env (output_dir o))) ;;;
    match results with
    | PNum _ => raise (Exn TypeError "'int' object is not iterable")
    | PList results =>
        for_each results (λ result,
          let schema_name := default "" (sr_schema result) in
          if has_rows result
          then for_each (default [] (sr_data result))
                        (write_row (open_error env) o schema_name)
          else ret tt) ;;;
        modify close_all ;;;
        counts <- gets group_row_counts ;;
        lift (log_group_counts counts)
    end.

(** [save_results], lines 369-455: the whole body sits in a [try] whose
    handler logs the exception. The result comes with the file objects the
    call leaves behind. *)
Definition save_results (env : environment)
    (summary : gmap string pyobj) (o : options) : (exn + unit) * registry :=
  try_except (save_results_body env summary o) (λ _, ret tt)
    empty_registry.

(** The calls of the row-writing statements that a list of results leads
    to when nothing fails. *)
Definition saved_calls (results : list saved_result) : list call :=
  results ≫= λ result,
    if has_rows result
    then pair (default "" (sr_schema result)) <$> default [] (sr_data result)
    else [].

(** The results of a run as a caller would collect them for a replay:
    the dictionaries that [future.result()] gave, in completion order. *)
Definition results_in_order (futs : list future) : list saved_result :=
  omap (λ fut, match fut_outcome fut with
               | inr r => Some (result_dict r)
               | inl _ => None
               end) futs.

(** The futures that the completion loop of a run goes through: none
    when the run raises before the loop. *)
Definition completed (env : environment) (sched : schedule) (max_workers : Z)
    (query : string) (o : options) : list future :=
  match get_schema_credentials env, os_makedirs env (output_dir o),
        thread_pool max_workers with
  | inr credentials_list, None, None =>
      as_completed sched (run_futures env sched query credentials_list)
  | _, _, _ => []
  end.

(** ** The command line: [main] *)

(** The parsed arguments of lines 479-485. *)
Record arguments : Type := Args {
  arg_query : option string;
  arg_complex : bool;
  arg_workers : Z;
  arg_group_column : option string;
  arg_output_dir : string
}.

(** The two literals of lines 488-494 and 502-504. *)
Definition complex_query : string :=
  "
        SELECT YEAR(FROM_UNIXTIME(created_on)) AS year,
               COUNT(*) AS tests_executed
        FROM test_changes
        GROUP BY year
        ORDER BY year
    ".

Definition simple_query : string :=
  "
        SELECT is_copy as copy, COUNT(*) as count from cases GROUP BY is_copy
    ".

(** Lines 497-504. *)
Definition main_query (a : arguments) : string :=
  if truthy (arg_query a) then the (arg_query a)
  else if arg_complex a then complex_query
  else simple_query.

(** Lines 510-519: the keyword arguments handed to [fetch_all_schemas]. *)
Definition main_options (a : arguments) : options :=
  match arg_group_column a with
  | Some c => Options (Some c) (arg_output_dir a) None
  | None =>
      if arg_complex a
      then Options None (arg_output_dir a) (Some "complex.csv")
      else Options (Some "copy") (arg_output_dir a) None
  end.

(** Lines 522-525: a fresh fetcher with [max_workers=args.workers],
    whose [errors] list is empty. *)
Definition main_run (env : environment) (sched : schedule) (a : arguments)
    : (exn + run_summary) * tally :=
  fetch_all_schemas env sched (arg_workers a) [] (main_query a) (main_options a).

(** ** The registry of sources: [get_schema_credentials] *)

Module Meta.
(** The literal of lines 59-68. *)
Definition query : string :=
  "
            SELECT 
                database_password, 
                database_name, 
                database_user, 
                database_servers.name as server_name
            FROM instances 
            JOIN database_servers ON instances.database_server_id = database_servers.replica_master_id 
            WHERE is_active = 1 AND is_installed = 1 and instances.id in (408520, 611219)
        ".

(** [get_schema_credentials], lines 50-91; [connect] is what
    [pymysql.connect] answers for the parameters of the meta database.
    The handler logs and re-raises. *)
Definition get_schema_credentials (connect : exn + connection) : exn + list row :=
  (try_except
     (conn <- lift connect ;;
      cursor <- lift (conn_execute conn query) ;;
      columns <- match rs_description cursor with
                 | Some d => ret d
                 | None => raise (Exn TypeError
                                    "'NoneType' object is not iterable")
                 end ;;
      rows <- lift (rs_fetchall cursor) ;;
      let credentials := (λ r, dict_of_pairs (zip columns r)) <$> rows in
      lift (from_option inl (inr tt) (rs_close cursor)) ;;;
      lift (from_option inl (inr tt) (conn_close conn)) ;;;
      ret credentials)
     (λ e, raise e) tt).1.
End Meta.

(** ** Per-schema statistics: [collect_stats], [fetch_stats_all_schemas] *)

Module Stats.
(** The literal of lines 26-33 of [collect_schema_stats.py] (24-31 of
    [multi_schema_stats_runner.py]). *)
Definition stats_query : string :=
  "
        SELECT
            SUM(CASE WHEN is_copy=0 THEN 1 ELSE 0 END) AS cases_copy_0,
            SUM(CASE WHEN is_copy=1 THEN 1 ELSE 0 END) AS cases_copy_1,
            (SELECT COUNT(*) FROM tests) AS tests_count,
            (SELECT COUNT(*) FROM test_changes) AS test_changes_count
        FROM cases
    ".

(** The dictionary a worker returns, tagged by its ['status']. *)
Inductive stats_result : Type :=
  | StatsSuccess (data : row)
  | StatsError (error : string) (schema : string).

(** [a + b] *)
Definition py_add (a b : value) : exn + value :=
  match a, b with
  | VInt x, VInt y => inr (VInt (x + y))
  | VStr s, VStr t => inr (VStr (s +:+ t))
  | _, _ => inl (Exn TypeError "unsupported operand type(s) for +")
  end.

(** [a < b]: defined between two numbers and between two texts. *)
Definition py_lt (a b : value) : bool :=
  match a, b with
  | VInt x, VInt y => Z.ltb x y
  | VStr s, VStr t => negb (String.leb t s)
  | _, _ => false
  end.

(** Whether [sorted] can order a list of keys, which may repeat: two
    keys are compared with [<] only when both are numbers or both are
    texts. *)
Definition comparable (keys : list value) : bool :=
  match keys with
  | [] | [_] => true
  | v :: l =>
      negb (bool_decide (type_of v = type_of VNone))
      && forallb (λ w, bool_decide (type_of w = type_of v)) l
  end.

(** [sorted(l, key=key)]: a stable sort, equal keys keep their order. *)
Fixpoint insert_by {A} (key : A → value) (x : A) (l : list A) : list A :=
  match l with
  | [] => [x]
  | y :: l' =>
      if py_lt (key y) (key x) then y :: insert_by key x l'
      else x :: y :: l'
  end.

Definition sorted_by {A} (key : A → value) (l : list A) : exn + list A :=
  if comparable (key <$> l) then inr (foldr (insert_by key) [] l)
  else inl (Exn TypeError "'<' not supported between instances").

(** Line 84. *)
Definition fieldnames : list string :=
  ["schema"; "cases_copy_0"; "cases_copy_1"; "tests_count";
   "test_changes_count"; "sum_tests_and_cases"].

(** Line 89: [w.writerow({k: r.get(k, 0) for k in fieldnames})]. *)
Definition cells (r : row) : list value :=
  (λ k, dict_get r k (VInt 0)) <$> fieldnames.

(** The dictionary returned at line 95. *)
Record stats_summary : Type := StatsSummary {
  total : nat;
  collected : nat;
  stats_errors : list stats_result;
  output_file : string
}.

(** The integer that a row holds under a column, 0 when it holds none. *)
Definition int_at (d : row) (k : string) : Z :=
  match d !! k with
  | Some (VInt z) => z
  | _ => 0%Z
  end.

Section Collect.
(** [int(s)] on a text: the number it denotes, [None] when [int] raises
    [ValueError]. *)
Variable int_of_str : string → option Z.

Definition py_int (v : value) : exn + value :=
  match v with
  | VInt z => inr (VInt z)
  | VStr s =>
      match int_of_str s with
      | Some z => inr (VInt z)
      | None => inl (Exn OtherException "invalid literal for int() with base 10")
      end
  | VNone => inl (Exn TypeError "int() argument must be a string, a bytes-like object or a real number, not 'NoneType'")
  end.

(** Lines 61-64: [int(v) if v is not None else 0], 0 when [int] raises. *)
Definition to_count (v : value) : value :=
  match v with
  | VNone => VInt 0
  | _ => match py_int v with
         | inr n => n
         | inl _ => VInt 0
         end
  end.

(** [worker], lines 38-71. [cur.fetchone()] on the fresh cursor is the
    first row of the result set, [None] when it is empty. *)
Definition worker (env : environment) (creds : credentials) : stats_result :=
  let schema := database_name creds in
  match
    (conn <- lift (pymysql_connect env creds) ;;
     cur <- lift (conn_execute conn stats_query) ;;
     rows <- lift (rs_fetchall cur) ;;
     let row := head rows in
     cols <- match rs_description cur with
             | Some d => ret d
             | None => raise (Exn TypeError "'NoneType' object is not iterable")
             end ;;
     lift (from_option inl (inr tt) (rs_close cur)) ;;;
     lift (from_option inl (inr tt) (conn_close conn)) ;;;
     let rowdata := match row with
                    | None => dict_of_pairs ((λ c, (c, VInt 0)) <$> cols)
                    | Some r => dict_of_pairs (zip cols r)
                    end in
     let rowdata := to_count <$> rowdata in
     let rowdata := <["schema" := VStr schema]> rowdata in
     s <- lift (py_add (dict_get rowdata "tests_count" (VInt 0))
                       (dict_get rowdata "cases_copy_0" (VInt 0))) ;;
     s <- lift (py_add s (dict_get rowdata "cases_copy_1" (VInt 0))) ;;
     ret (<["sum_tests_and_cases" := s]> rowdata)) tt
  with
  | (inr rowdata, _) => StatsSuccess rowdata
  | (inl e, _) => StatsError (exn_msg e) schema
  end.

Definition success_data (res : stats_result) : option row :=
  match res with
  | StatsSuccess data => Some data
  | StatsError _ _ => None
  end.

(** [collect_stats], lines 22-95 of [collect_schema_stats.py]. [order]
    is the order in which [as_completed] hands the futures back. The
    thread pool is created at line 73, before any worker runs, and the
    output directory at line 82, after all of them. The result comes
    with the file object of line 85, if it was opened; the [with] block
    closes it on every way out. *)
Definition collect_stats (env : environment)
    (order : list stats_result → list stats_result) (workers : Z)
    (output_dir output_file : string)
    : (exn + stats_summary) * option file :=
  match get_schema_credentials env with
  | inl e => (inl e, None)
  | inr creds_list =>
      match thread_pool workers with
      | Some e => (inl e, None)
      | None =>
          let done := order (worker env <$> creds_list) in
          let results := omap success_data done in
          let errors := filter (λ res, success_data res = None) done in
          match os_makedirs env output_dir with
          | Some e => (inl e, None)
          | None =>
              let outpath := os_path_join output_dir output_file in
              match open_error env outpath with
              | Some e => (inl e, None)
              | None =>
                  let header := header_line fieldnames in
                  match sorted_by (λ x, dict_get x "schema" VNone) results with
                  | inl e => (inl e, Some (File outpath [header] true))
                  | inr rs =>
                      (inr (StatsSummary (length creds_list) (length results)
                              errors outpath),
                       Some (File outpath (header :: (cells <$> rs)) true))
                  end
              end
          end
      end
  end.

(** [fetch_stats_all_schemas], lines 21-93 of
    [multi_schema_stats_runner.py], has the same statements, with
    [self.max_workers] for [workers]. *)
Definition fetch_stats_all_schemas := collect_stats.
End Collect.
End Stats.

(** ** Readings of the specification that the code does not meet *)

(** Group key and file name, with the file name of the ungrouped case
    taken to be one that the caller gave. *)
Definition key_and_name_as_claimed (o : options) (r : row) : Prop :=
  if truthy (single_file_name o) || negb (truthy (group_column o))
  then group_value_of o r = VStr "all"
       ∧ single_file_name o = Some (filename_of o (group_value_of o r))
  else r !! the (group_column o) = Some (group_value_of o r)
       ∧ filename_of o (group_value_of o r)
         = the (group_column o) +:+ "_" +:+ py_str (group_value_of o r) +:+ ".csv".

(** The total in the summary is the sum of the row counts that the
    successful sources returned, whatever the file system does. *)
Definition total_rows_as_claimed (env : environment) (sched : schedule)
    (mw : Z) (errs : list fetch_result) (query : string) (o : options) : Prop :=
  ∀ cl s t,
    get_schema_credentials env = inr cl →
    fetch_all_schemas env sched mw errs query o = (inr s, t) →
    total_rows_written s = rows_returned (run_futures env sched query cl).


(** ** Concrete runs *)

Module Scenario.
(** A server that answers every query with the same table. *)
Definition table (cols : list string) (rows : list (list value))
    : exn + connection :=
  inr (Connection (λ _, inr (ResultSet (Some cols) (inr rows) None)) None).

Definition source (name : string) : credentials :=
  Credentials "secret" name "reader" "db-host".

(** The fleet, by database name; any other database refuses the login. *)
Definition fleet (c : credentials) : exn + connection :=
  if String.eqb (database_name c) "a" then table ["y"; "n"] [[VInt 2021; VInt 5]]
  else if String.eqb (database_name c) "b" then table ["y"; "n"] [[VInt 2021; VInt 3]]
  else if String.eqb (database_name c) "c" then table ["y"; "n"] [[VInt 2022; VInt 7]]
  else if String.eqb (database_name c) "same"
    then table ["y"; "n"] [[VInt 2021; VInt 5]; [VInt 2021; VInt 3]]
  else if String.eqb (database_name c) "split"
    then table ["y"; "n"] [[VInt 2021; VInt 5]; [VInt 2022; VInt 3]]
  else if String.eqb (database_name c) "nulls"
    then table ["y"; "n"] [[VInt 2022; VInt 7]; [VNone; VInt 1]]
  else if String.eqb (database_name c) "slash"
    then table ["y"; "n"]
           [[VStr "x"; VInt 1]; [VStr "a/b"; VInt 2]; [VStr "z"; VInt 3]]
  else inl (Exn PyMySQLError "(1045, 'Access denied')").

(** Every path can be opened, and every directory created. *)
Definition any_path (p : string) : option exn := None.

(** Only the output directory exists: a file in a subdirectory of it
    cannot be opened. *)
Definition flat_dir (p : string) : option exn :=
  if String.eqb p "./y_a/b.csv"
  then Some (Exn OSError "[Errno 2] No such file or directory: './y_a/b.csv'")
  else None.

Definition world (sources : list string) (open_error : string → option exn)
    : environment :=
  Environment (inr (source <$> sources)) fleet open_error any_path 0 1500000.

(** No two workers share a name, so none disturbs another; futures
    come back in submission order, or in the reverse order. *)
Definition in_order : schedule :=
  Schedule (λ _ _ t, t) (λ _, ∅) (λ _, "2026-01-01T00:00:00") id.

Definition reversed : schedule :=
  Schedule (λ _ _ t, t) (λ _, ∅) (λ _, "2026-01-01T00:00:00") reverse.

Definition by_year : options := Options (Some "y") "." None.
Definition ungrouped : options := Options None "." None.

Definition query : string := "SELECT y, n FROM t".

Definition row_2021 : row := <["y" := VInt 2021]> (<["n" := VInt 5]> ∅).
Definition row_own_schema : row :=
  <["y" := VInt 2021]> (<["schema" := VStr "elsewhere"]> ∅).

(** The registry after the first row of source ["a"]. *)
Definition after_first : registry :=
  (write_row any_path by_year "a" row_2021 empty_registry).2.
End Scenario.

(** Inputs for the edge cases of the replay path, the worker and the
    command line. *)
Module Cases.
(** One successful source whose second row names a group that cannot be
    opened under [Scenario.flat_dir]. *)
Definition slash_rows : list row :=
  [ <["y" := VStr "x"]> (<["n" := VInt 1]> ∅);
    <["y" := VStr "a/b"]> (<["n" := VInt 2]> ∅);
    <["y" := VStr "z"]> (<["n" := VInt 3]> ∅) ].

Definition bad_row : row := <["y" := VStr "a/b"]> (<["n" := VInt 2]> ∅).

Definition slash_results : list saved_result :=
  [SavedResult (Some "slash") (Some "success") (Some slash_rows)].

Definition with_results (rs : list saved_result) : gmap string pyobj :=
  <["results" := PList rs]> ∅.


(** The same year once as a number and once as text. *)
Definition row_int_1 : row := <["y" := VInt 1]> ∅.
Definition row_str_1 : row := <["y" := VStr "1"]> ∅.



Definition after_both : registry :=
  (write_row Scenario.any_path Scenario.by_year "b" row_str_1
     (write_row Scenario.any_path Scenario.by_year "a" row_int_1
        empty_registry).2).2.

Definition complex_run : arguments := Args None true 10 None "out".


Definition slash_future : future :=
  Future "slash" (inr (Success "slash" 3 slash_rows)).

Definition slash_error : exn :=
  Exn OSError "[Errno 2] No such file or directory: './y_a/b.csv'".

(** A registry database with two rows. *)
Definition meta_columns : list string :=
  ["database_password"; "database_name"; "database_user"; "server_name"].

Definition meta_rows : list (list value) :=
  [ [VStr "secret"; VStr "a"; VStr "reader"; VStr "db-host"];
    [VStr "secret"; VStr "b"; VStr "reader"; VStr "db-host"] ].

Definition meta_cursor : result_set :=
  ResultSet (Some meta_columns) (inr meta_rows) None.

Definition meta_conn : connection := Connection (λ _, inr meta_cursor) None.

(** Schemas without cases: both sums are NULL. *)
Definition stats_columns : list string :=
  ["cases_copy_0"; "cases_copy_1"; "tests_count"; "test_changes_count"].

Definition stats_cursor : result_set :=
  ResultSet (Some stats_columns) (inr [[VNone; VNone; VInt 4; VInt 9]]) None.

Definition stats_conn : connection := Connection (λ _, inr stats_cursor) None.

Definition stats_fleet (c : credentials) : exn + connection :=
  if String.eqb (database_name c) "zz"
  then inl (Exn PyMySQLError "(1045, 'Access denied')")
  else inr stats_conn.

Definition stats_world (sources : list string) : environment :=
  Environment (inr (Scenario.source <$> sources)) stats_fleet Scenario.any_path
              Scenario.any_path 0 1500000.

(** No text denotes a number. *)
Definition no_int (s : string) : option Z := None.

Definition stats_row_a : row :=
  match Stats.worker no_int (stats_world ["a"; "zz"; "b"]) (Scenario.source "a") with
  | Stats.StatsSuccess data => data
  | Stats.StatsError _ _ => ∅
  end.
End Cases.

(** * Properties *)

#[local] Arguments fieldnames_of : simpl never.
#[local] Arguments header_line : simpl never.
#[local] Arguments record_of : simpl never.
#[local] Arguments dict_to_list : simpl never.

(** ** Columns and records *)

Lemma sorted_Sorted l : Sorted String.le (sorted l).
Proof. apply Sorted_merge_sort; apply _. Qed.

Lemma sorted_Permutation l : sorted l ≡ₚ l.
Proof. apply merge_sort_Permutation. Qed.

Lemma elem_of_dict_keys {V} (d : gmap string V) k :
  k ∈ dict_keys d ↔ is_Some (d !! k).
Proof.
  unfold dict_keys. rewrite list_elem_of_fmap. split.
  - intros [[k' v] [-> Hin]]. apply elem_of_map_to_list in Hin. by exists v.
  - intros [v Hv]. exists (k, v). split; [done|]. by apply elem_of_map_to_list.
Qed.

Lemma NoDup_dict_keys {V} (d : gmap string V) : NoDup (dict_keys d).
Proof. apply NoDup_fst_map_to_list. Qed.

(** The header computed at line 281: ['schema'] first, then the other
    column names of the row, each once, in increasing order. *)
Lemma fieldnames_of_spec (r : row) :
  ∃ cols, fieldnames_of r = "schema" :: cols
          ∧ Sorted String.le cols
          ∧ NoDup cols
          ∧ ∀ k, k ∈ cols ↔ k ≠ "schema" ∧ is_Some (r !! k).
Proof.
  exists (sorted (filter (λ k, k ≠ "schema") (dict_keys r))).
  split; [done|]. split; [apply sorted_Sorted|]. split.
  - rewrite sorted_Permutation. apply NoDup_filter, NoDup_dict_keys.
  - intros k. rewrite sorted_Permutation, list_elem_of_filter, elem_of_dict_keys.
    done.
Qed.

Lemma make_row_lookup_schema s (data_row : row) :
  make_row s data_row !! "schema" = Some (default (VStr s) (data_row !! "schema")).
Proof.
  unfold make_row, dict_update. rewrite lookup_union.
  destruct (data_row !! "schema") as [v|]; simpl.
  - by rewrite lookup_singleton_eq.
  - by rewrite lookup_singleton_eq.
Qed.

Lemma make_row_lookup_other s (data_row : row) k :
  k ≠ "schema" → make_row s data_row !! k = data_row !! k.
Proof.
  intros Hk. unfold make_row, dict_update. rewrite lookup_union.
  rewrite lookup_singleton_ne by done. by destruct (data_row !! k).
Qed.

Lemma length_dict_to_list fn (r : row) : length (dict_to_list fn r) = length fn.
Proof. unfold dict_to_list. by rewrite length_fmap. Qed.

Lemma dict_to_list_lookup fn (r : row) i k :
  fn !! i = Some k → dict_to_list fn r !! i = Some (default restval (r !! k)).
Proof. intros Hi. unfold dict_to_list. by rewrite list_lookup_fmap, Hi. Qed.

(** Columns of the row that are not in the header do not reach the record. *)
Lemma dict_to_list_ext fn (r r' : row) :
  (∀ k, k ∈ fn → r !! k = r' !! k) → dict_to_list fn r = dict_to_list fn r'.
Proof.
  intros Heq. unfold dict_to_list. apply list_fmap_ext.
  intros i k Hk. unfold dict_get. rewrite Heq; [done|].
  by apply list_elem_of_lookup_2 in Hk.
Qed.

(** ** One call of [write_row] *)

Section WriteRow.
Variable open_error : string → option exn.
Variable o : options.

(** The group exists: the record is appended and the count bumped. *)
Lemma write_row_known s r st w fn c f :
  let g := group_value_of o r in
  group_writers st !! g = Some w →
  group_fieldnames st !! g = Some fn →
  group_row_counts st !! g = Some c →
  files st !! dw_file w = Some f →
  f_closed f = false →
  write_row open_error o s r st =
    (inr tt,
     set_group_row_counts <[g := c + 1]>
       (set_files (alter (append_line (dict_to_list (dw_fieldnames w) (make_row s r)))
                         (dw_file w)) st)).
Proof.
  intros g Hw Hfn Hc Hf Hcl.
  unfold write_row, bind, gets, ret, subscript, writerow, csv_writerow, modify.
  fold g. rewrite Hw. simpl. rewrite Hfn. simpl. rewrite Hw. simpl.
  rewrite Hf, Hcl. simpl. by rewrite Hc.
Qed.

(** The group is new and its file cannot be opened: the call raises
    what [open] raised and leaves the registry as it was. *)
Lemma write_row_new_raise s r st e :
  let g := group_value_of o r in
  group_writers st !! g = None →
  open_error (path_of o g) = Some e →
  write_row open_error o s r st = (inl e, st).
Proof.
  intros g Hw He.
  unfold write_row, bind, gets, open_w. fold g. rewrite Hw.
  unfold path_of in He. by rewrite He.
Qed.

(** The group is new and its file opens: header line, then the record. *)
Lemma write_row_new_ok s r st :
  let g := group_value_of o r in
  let fn := fieldnames_of (make_row s r) in
  let h := length (files st) in
  group_writers st !! g = None →
  group_fieldnames st !! g = None →
  open_error (path_of o g) = None →
  write_row open_error o s r st =
    (inr tt,
     Registry (<[g := MkDictWriter h fn]> (group_writers st))
              (<[g := fn]> (group_fieldnames st))
              (<[g := 1]> (group_row_counts st))
              (<[g := h]> (open_files st))
              (files st ++ [File (path_of o g)
                              [header_line fn; dict_to_list fn (make_row s r)]
                              false])).
Proof.
  intros g fn h Hw Hfn He.
  unfold write_row, bind, gets, open_w, modify, ret, subscript, writerow,
    writeheader, csv_writerow.
  fold g. rewrite Hw. unfold path_of in He. rewrite He. simpl.
  rewrite Hfn. simpl. rewrite !lookup_insert_eq. simpl.
  rewrite lookup_app_r by done. rewrite Nat.sub_diag. simpl.
  rewrite lookup_insert_eq. simpl.
  rewrite alter_app_r_alt by done.
  rewrite Nat.sub_diag. simpl.
  rewrite lookup_app_r by done. rewrite Nat.sub_diag. simpl.
  rewrite lookup_insert_eq. simpl.
  unfold set_group_row_counts, set_files, set_group_writers,
    set_group_fieldnames, set_open_files; simpl.
  rewrite !alter_app_r_alt by done.
  rewrite Nat.sub_diag. simpl.
  rewrite insert_insert_eq. done.
Qed.
End WriteRow.

(** ** The registry invariant *)

Section Invariant.
Variable open_error : string → option exn.
Variable o : options.

Lemma written_to_snoc g tr c :
  written_to o g (tr ++ [c]) =
    written_to o g tr ++ (if decide (call_group o c = g) then [c] else []).
Proof.
  unfold written_to. by rewrite filter_app.
Qed.

Lemma written_to_app g tr1 tr2 :
  written_to o g (tr1 ++ tr2) = written_to o g tr1 ++ written_to o g tr2.
Proof. apply filter_app. Qed.

Lemma group_holds_handle st g cs h :
  group_holds o st g cs → open_files st !! g = Some h →
  h < length (files st) ∧ cs ≠ [].
Proof.
  destruct cs as [|c0 cs]; simpl.
  - intros (_ & _ & _ & Hof) Hh. congruence.
  - intros (h' & _ & _ & _ & Hof & Hf) Hh. split; [|done].
    assert (h = h') as -> by congruence. by eapply lookup_lt_Some.
Qed.

Lemma group_holds_unknown st g cs :
  group_holds o st g cs → group_writers st !! g = None → cs = [].
Proof.
  destruct cs as [|c0 cs]; [done|]. simpl.
  intros (h & Hw & _) Hn. congruence.
Qed.

Lemma reg_inv_empty : reg_inv o [] empty_registry.
Proof.
  split; simpl.
  - intros g. unfold written_to. simpl. by rewrite !lookup_empty.
  - intros h Hh. lia.
  - intros g1 g2 h Hg. by rewrite lookup_empty in Hg.
Qed.

(** A call on a known group keeps the invariant, with one more row. *)
Lemma reg_inv_known tr st s r w :
  let g := group_value_of o r in
  reg_inv o tr st →
  group_writers st !! g = Some w →
  ∃ st', write_row open_error o s r st = (inr tt, st')
         ∧ reg_inv o (tr ++ [(s, r)]) st'
         ∧ group_fieldnames st' = group_fieldnames st
         ∧ group_writers st' = group_writers st
         ∧ open_files st' = open_files st.
Proof.
  intros g [Hgr Hha Hin] Hw.
  pose proof (Hgr g) as Hg.
  destruct (written_to o g tr) as [|c0 cs] eqn:Hcs; simpl in Hg.
  { destruct Hg as (Hn & _). congruence. }
  destruct Hg as (h & Hw' & Hfn & Hc & Hof & Hf).
  assert (w = MkDictWriter h (fieldnames_of (call_row c0))) as -> by congruence.
  eexists. split.
  { eapply write_row_known; eauto. }
  split; [|done]. simpl. split; simpl.
  - intros g'. rewrite written_to_snoc. unfold call_group; simpl. fold g.
    destruct (decide (g = g')) as [<-|Hne].
    + rewrite Hcs. simpl. exists h. rewrite lookup_insert_eq.
      rewrite list_lookup_alter, decide_True by done. rewrite Hf. simpl.
      repeat split; try done.
      * f_equal. rewrite length_app. simpl. lia.
      * unfold append_line; simpl. do 3 f_equal.
        by rewrite fmap_app.
    + rewrite app_nil_r. pose proof (Hgr g') as Hg'.
      destruct (written_to o g' tr) as [|c0' cs']; simpl in *.
      * rewrite lookup_insert_ne by done. done.
      * destruct Hg' as (h' & ? & ? & ? & Hof' & Hf').
        exists h'. rewrite lookup_insert_ne by done.
        rewrite list_lookup_alter_ne; [done|].
        intros ->. by apply Hne, (Hin g g' h').
  - intros h0. rewrite length_alter. apply Hha.
  - done.
Qed.

(** A call on a new group whose file opens creates the group. *)
Lemma reg_inv_new tr st s r :
  let g := group_value_of o r in
  reg_inv o tr st →
  group_writers st !! g = None →
  open_error (path_of o g) = None →
  ∃ st', write_row open_error o s r st = (inr tt, st')
         ∧ reg_inv o (tr ++ [(s, r)]) st'
         ∧ group_fieldnames st' =
             <[g := fieldnames_of (make_row s r)]> (group_fieldnames st)
         ∧ written_to o g tr = [].
Proof.
  intros g [Hgr Hha Hin] Hw He.
  pose proof (Hgr g) as Hg.
  pose proof (group_holds_unknown _ _ _ Hg Hw) as Hcs.
  rewrite Hcs in Hg. simpl in Hg. destruct Hg as (_ & Hfn & Hc & Hof).
  eexists. split.
  { by apply write_row_new_ok. }
  split; [|done]. split; simpl.
  - intros g'. rewrite written_to_snoc. unfold call_group; simpl. fold g.
    destruct (decide (g = g')) as [<-|Hne].
    + rewrite Hcs. simpl. eexists. rewrite !lookup_insert_eq.
      rewrite lookup_app_r, Nat.sub_diag by done. simpl. done.
    + rewrite app_nil_r. pose proof (Hgr g') as Hg'.
      destruct (written_to o g' tr) as [|c0' cs']; simpl in *.
      * rewrite !lookup_insert_ne by done. done.
      * destruct Hg' as (h' & ? & ? & ? & Hof' & Hf').
        exists h'. rewrite !lookup_insert_ne by done.
        rewrite lookup_app_l; [done|]. by eapply lookup_lt_Some.
  - intros h0. rewrite length_app. simpl. intros Hlt.
    destruct (decide (h0 = length (files st))) as [->|Hne].
    + exists g. by rewrite lookup_insert_eq.
    + destruct (Hha h0) as [g0 Hg0]; [lia|].
      exists g0. rewrite lookup_insert_ne; [done|].
      intros Heq. unfold g in *. congruence.
  - intros g1 g2 h0.
    assert (Hfresh : ∀ g0, open_files st !! g0 = Some (length (files st)) → False).
    { intros g0 Hg0.
      destruct (group_holds_handle st g0 _ _ (Hgr g0) Hg0) as [Hlt _]. lia. }
    rewrite !lookup_insert.
    repeat case_decide; simplify_eq; intros ??; simplify_eq; eauto.
    + exfalso; eauto.
    + exfalso; eauto.
Qed.

(** Every call either writes its row and keeps the invariant, or fails
    in [open] on a new group and changes nothing. *)
Lemma write_row_inv tr st s r :
  let g := group_value_of o r in
  reg_inv o tr st →
  (∃ st', write_row open_error o s r st = (inr tt, st')
          ∧ reg_inv o (tr ++ [(s, r)]) st'
          ∧ (is_Some (group_writers st !! g) ∨ open_error (path_of o g) = None))
  ∨ (∃ e, write_row open_error o s r st = (inl e, st)
          ∧ group_writers st !! g = None
          ∧ open_error (path_of o g) = Some e).
Proof.
  intros g Hinv.
  destruct (group_writers st !! g) as [w|] eqn:Hw.
  - left. destruct (reg_inv_known tr st s r w Hinv Hw) as (st' & ? & ? & _).
    exists st'. eauto.
  - destruct (open_error (path_of o g)) as [e|] eqn:He.
    + right. exists e. split; [|done]. by apply write_row_new_raise.
    + left. destruct (reg_inv_new tr st s r Hinv Hw He) as (st' & ? & ? & _).
      exists st'. eauto.
Qed.

Lemma steps_inv st0 tr0 tr st :
  reg_inv o tr0 st0 → steps open_error o st0 tr st → reg_inv o (tr0 ++ tr) st.
Proof.
  intros H0. induction 1 as [|st0 tr st1 s r st2 _ IH Hw|st0 tr st1 s r e st2 _ IH Hw].
  - by rewrite app_nil_r.
  - specialize (IH H0).
    destruct (write_row_inv _ _ s r IH) as [(st' & Hw' & Hinv & _)|(e & Hw' & _)].
    + rewrite Hw in Hw'. simplify_eq. by rewrite app_assoc.
    + rewrite Hw in Hw'. simplify_eq.
  - specialize (IH H0).
    destruct (write_row_inv _ _ s r IH) as [(st' & Hw' & Hinv & _)|(e' & Hw' & _)].
    + rewrite Hw in Hw'. simplify_eq.
    + rewrite Hw in Hw'. by simplify_eq.
Qed.

Lemma reaches_inv tr st : reaches open_error o tr st → reg_inv o tr st.
Proof. intros H. apply (steps_inv _ [] tr st reg_inv_empty H). Qed.

Lemma steps_trans st0 tr1 st1 tr2 st2 :
  steps open_error o st0 tr1 st1 → steps open_error o st1 tr2 st2 →
  steps open_error o st0 (tr1 ++ tr2) st2.
Proof.
  intros H1. induction 1.
  - by rewrite app_nil_r.
  - rewrite app_assoc. eapply steps_ok; eauto.
  - eapply steps_raise; eauto.
Qed.
End Invariant.

(** ** What a successful call leaves in the group's file *)

Section Effect.
Variable open_error : string → option exn.
Variable o : options.

Lemma fieldnames_of_head (r : row) : head (fieldnames_of r) = Some "schema".
Proof. done. Qed.

(** After a call that returned normally, the group of the row has its
    header, the one of the first row written to it, and its file holds
    the header line, the earlier records and the record of this row. *)
Lemma write_row_effect tr st s r st' :
  let g := group_value_of o r in
  reaches open_error o tr st →
  write_row open_error o s r st = (inr tt, st') →
  ∃ c0 h,
    head (written_to o g (tr ++ [(s, r)])) = Some c0
    ∧ group_fieldnames st' !! g = Some (fieldnames_of (call_row c0))
    ∧ open_files st' !! g = Some h
    ∧ files st' !! h =
        Some (File (path_of o g)
                (header_line (fieldnames_of (call_row c0))
                   :: (record_of (fieldnames_of (call_row c0)) <$> written_to o g tr)
                   ++ [record_of (fieldnames_of (call_row c0)) (s, r)])
                false)
    ∧ reg_inv o (tr ++ [(s, r)]) st'.
Proof.
  intros g Hr Hw. apply reaches_inv in Hr.
  destruct (write_row_inv open_error o tr st s r Hr)
    as [(st2 & Hw2 & Hinv & _)|(e & Hw2 & _)]; [|congruence].
  assert (st2 = st') as -> by congruence.
  pose proof (inv_groups _ _ _ Hinv g) as Hg.
  rewrite written_to_snoc in Hg |- *. unfold call_group in *; simpl in *.
  fold g in Hg |- *. rewrite decide_True in Hg |- * by done.
  destruct (written_to o g tr) as [|c0 cs]; simpl in *.
  - destruct Hg as (h & _ & Hfn & _ & Hof & Hf). exists (s, r), h. done.
  - destruct Hg as (h & _ & Hfn & _ & Hof & Hf). exists c0, h.
    split; [done|]. split; [done|]. split; [done|]. split; [|done].
    rewrite Hf. by rewrite fmap_app.
Qed.

(** The header of a group is that of the first row written to it. *)
Lemma header_of_first tr st g :
  reaches open_error o tr st →
  group_fieldnames st !! g =
    (λ c, fieldnames_of (call_row c)) <$> head (written_to o g tr).
Proof.
  intros Hr. apply reaches_inv in Hr.
  pose proof (inv_groups _ _ _ Hr g) as Hg.
  destruct (written_to o g tr) as [|c0 cs]; simpl in *.
  - by destruct Hg as (_ & -> & _).
  - by destruct Hg as (h & _ & -> & _).
Qed.

Lemma header_line_first tr st g fn :
  reaches open_error o tr st →
  group_fieldnames st !! g = Some fn →
  ∃ h f, open_files st !! g = Some h ∧ files st !! h = Some f
         ∧ head (f_lines f) = Some (header_line fn)
         ∧ length (f_lines f) = S (length (written_to o g tr)).
Proof.
  intros Hr Hfn. apply reaches_inv in Hr.
  pose proof (inv_groups _ _ _ Hr g) as Hg.
  destruct (written_to o g tr) as [|c0 cs]; simpl in *.
  - destruct Hg as (_ & Hn & _). congruence.
  - destruct Hg as (h & _ & Hfn' & _ & Hof & Hf).
    assert (fn = fieldnames_of (call_row c0)) as -> by congruence.
    eexists _, _. repeat split; try done. simpl. by rewrite length_fmap.
Qed.
End Effect.

(** ** Header of a group *)

(** C1. For every group, the header is fixed by the first row written to
    the group: it is ['schema'] followed by the other column names of that
    row, each once and in increasing lexicographic order, and the header
    line opens the group's file. Once fixed it stays the same whatever
    calls follow, from whichever sources. *)
Theorem header_fixed_by_first_row open_error o tr st g :
  reaches open_error o tr st →
  group_fieldnames st !! g =
    (λ c, fieldnames_of (call_row c)) <$> head (written_to o g tr)
  ∧ (∀ c, head (written_to o g tr) = Some c →
       ∃ cols h f,
         group_fieldnames st !! g = Some ("schema" :: cols)
         ∧ Sorted String.le cols
         ∧ NoDup cols
         ∧ (∀ k, k ∈ cols ↔ k ≠ "schema" ∧ is_Some (c.2 !! k))
         ∧ open_files st !! g = Some h
         ∧ files st !! h = Some f
         ∧ head (f_lines f) = Some (VStr <$> "schema" :: cols))
  ∧ (∀ fn tr' st',
       group_fieldnames st !! g = Some fn →
       steps open_error o st tr' st' →
       group_fieldnames st' !! g = Some fn
       ∧ ∃ h f, open_files st' !! g = Some h ∧ files st' !! h = Some f
                ∧ head (f_lines f) = Some (header_line fn)).
Proof.
  intros Hr. pose proof (header_of_first _ _ _ _ g Hr) as Hhd.
  split; [done|]. split.
  - intros c Hc. rewrite Hc in Hhd. simpl in Hhd.
    destruct (fieldnames_of_spec (call_row c)) as (cols & Hfn & Hs & Hnd & Hin).
    rewrite Hfn in Hhd.
    destruct (header_line_first _ _ _ _ _ _ Hr Hhd) as (h & f & Hof & Hf & Hl & _).
    exists cols, h, f.
    split; [done|]. split; [done|]. split; [done|]. split; [|done].
    intros k. rewrite Hin. unfold call_row.
    split; intros [Hk Hv]; (split; [done|]).
    + by rewrite make_row_lookup_other in Hv.
    + by rewrite make_row_lookup_other.
  - intros fn tr' st' Hfn Hst.
    assert (Hr' : reaches open_error o (tr ++ tr') st')
      by (eapply steps_trans; eauto).
    pose proof (header_of_first _ _ _ _ g Hr') as Hhd'.
    rewrite written_to_app in Hhd'.
    rewrite Hfn in Hhd.
    destruct (written_to o g tr) as [|c0 cs]; [done|]. simpl in *.
    rewrite Hhd. split; [done|].
    destruct (header_line_first _ _ _ _ _ _ Hr' Hhd') as (h & f & ? & ? & ? & _).
    simplify_eq. eauto.
Qed.

(** ** Records against the header *)

Lemma header_fixed_writer open_error o tr st g fn :
  reaches open_error o tr st →
  group_fieldnames st !! g = Some fn →
  ∃ h c0 cs,
    written_to o g tr = c0 :: cs
    ∧ fn = fieldnames_of (call_row c0)
    ∧ group_writers st !! g = Some (MkDictWriter h fn)
    ∧ open_files st !! g = Some h
    ∧ files st !! h =
        Some (File (path_of o g) (header_line fn :: (record_of fn <$> c0 :: cs)) false).
Proof.
  intros Hr Hfn. apply reaches_inv in Hr.
  pose proof (inv_groups _ _ _ Hr g) as Hg.
  destruct (written_to o g tr) as [|c0 cs]; simpl in Hg.
  - destruct Hg as (_ & Hn & _). congruence.
  - destruct Hg as (h & Hw & Hfn' & _ & Hof & Hf).
    assert (fn = fieldnames_of (call_row c0)) as -> by congruence.
    by exists h, c0, cs.
Qed.

(** C5. A row sent to a group whose header is fixed is always written (no
    column of the row makes the call fail), and every row that is written
    is laid out against the fixed header of its group: the record has one
    cell per header column, in header order; the cell of a column other
    than ['schema'] is the value the data row has for it, and the empty
    string when the row lacks it; the cell of ['schema'] is the data
    row's own value for it, and the source name when it has none; a
    column of the row that the header lacks has no cell, so that it has no
    influence on the record. *)
Theorem row_written_against_header open_error o tr st s r :
  reaches open_error o tr st →
  (∀ fn, group_fieldnames st !! group_value_of o r = Some fn →
     ∃ st', write_row open_error o s r st = (inr tt, st'))
  ∧ (∀ st', write_row open_error o s r st = (inr tt, st') →
     ∃ fn h f line,
       group_fieldnames st' !! group_value_of o r = Some fn
       ∧ (∀ fn0, group_fieldnames st !! group_value_of o r = Some fn0 → fn0 = fn)
       ∧ open_files st' !! group_value_of o r = Some h
       ∧ files st' !! h = Some f
       ∧ f_lines f =
           header_line fn
             :: (record_of fn <$> written_to o (group_value_of o r) tr) ++ [line]
       ∧ (∀ h0 f0, open_files st !! group_value_of o r = Some h0 →
            files st !! h0 = Some f0 → h0 = h ∧ f_lines f = f_lines f0 ++ [line])
       ∧ length line = length fn
       ∧ (∀ i k, fn !! i = Some k → k ≠ "schema" →
            line !! i = Some (default (VStr "") (r !! k)))
       ∧ (∀ i, fn !! i = Some "schema" →
            line !! i = Some (default (VStr s) (r !! "schema")))
       ∧ (∀ r2 : row, (∀ k, k ∈ fn → r2 !! k = r !! k) →
            line = record_of fn (s, r2))).
Proof.
  intros Hr. split.
  - intros fn Hfn.
    destruct (header_fixed_writer _ _ _ _ _ _ Hr Hfn) as (h & c0 & cs & _ & _ & Hw & _).
    destruct (reg_inv_known open_error o tr st s r _ (reaches_inv _ _ _ _ Hr) Hw)
      as (st' & Hst' & _).
    by exists st'.
  - intros st' Hw.
    destruct (write_row_effect _ _ _ _ _ _ _ Hr Hw)
      as (c0 & h & Hhd & Hfn & Hof & Hf & Hinv).
    set (g := group_value_of o r) in *.
    set (fn := fieldnames_of (call_row c0)) in *.
    eexists fn, h, _, (record_of fn (s, r)).
    split; [done|]. split.
    { intros fn0 Hfn0.
      destruct (header_fixed_writer _ _ _ _ _ _ Hr Hfn0) as (h0 & c1 & cs & Hcs & -> & _).
      rewrite written_to_app, Hcs in Hhd. simpl in Hhd. by simplify_eq. }
    split; [done|]. split; [exact Hf|]. split; [done|]. split.
    { intros h0 f0 Hof0 Hf0.
      pose proof (inv_groups _ _ _ (reaches_inv _ _ _ _ Hr) g) as Hg.
      rewrite written_to_app in Hhd.
      destruct (written_to o g tr) as [|c1 cs]; simpl in Hg, Hhd.
      - destruct Hg as (_ & _ & _ & Hn). congruence.
      - destruct Hg as (h1 & Hw1 & _ & _ & Hof1 & Hf1). simplify_eq.
        assert (Hwk : group_writers st !! g = Some (MkDictWriter h0 fn)) by done.
        destruct (reg_inv_known open_error o tr st s r _ (reaches_inv _ _ _ _ Hr) Hwk)
          as (st2 & Hst2 & _ & _ & _ & Hofeq).
        assert (st2 = st') as -> by congruence.
        rewrite Hofeq in Hof. split; [congruence|]. done. }
    split; [apply length_dict_to_list|]. split.
    { intros i k Hk Hne. unfold record_of, call_row. simpl.
      rewrite (dict_to_list_lookup _ _ _ _ Hk).
      by rewrite make_row_lookup_other. }
    split.
    { intros i Hk. unfold record_of, call_row. simpl.
      rewrite (dict_to_list_lookup _ _ _ _ Hk).
      by rewrite make_row_lookup_schema. }
    intros r2 Hr2. unfold record_of, call_row. simpl.
    apply dict_to_list_ext. intros k Hk.
    destruct (decide (k = "schema")) as [->|Hne].
    + by rewrite !make_row_lookup_schema, (Hr2 _ Hk).
    + by rewrite !make_row_lookup_other, (Hr2 _ Hk).
Qed.

(** ** Group key and file name *)

Lemma truthy_Some c : c ≠ "" → truthy (Some c) = true.
Proof.
  intros Hc. simpl. destruct (String.eqb c "") eqn:E; [|done].
  by apply String.eqb_eq in E.
Qed.

Lemma truthy_true o : truthy o = true → ∃ c, o = Some c ∧ c ≠ "".
Proof.
  destruct o as [c|]; [|done]. simpl. intros Hc. exists c. split; [done|].
  intros ->. done.
Qed.

(** What a successful call leaves, read off the group of the row: the file
    registered under the group key was opened on the path of the group
    and ends with the record of the row. *)
Lemma write_row_lands open_error o tr st s r st' :
  reaches open_error o tr st →
  write_row open_error o s r st = (inr tt, st') →
  ∃ h f fn,
    open_files st' !! group_value_of o r = Some h
    ∧ files st' !! h = Some f
    ∧ f_path f = os_path_join (output_dir o) (filename_of o (group_value_of o r))
    ∧ f_closed f = false
    ∧ group_fieldnames st' !! group_value_of o r = Some fn
    ∧ head fn = Some "schema"
    ∧ head (f_lines f) = Some (header_line fn)
    ∧ last (f_lines f) = Some (dict_to_list fn (make_row s r)).
Proof.
  intros Hr Hw.
  destruct (write_row_effect _ _ _ _ _ _ _ Hr Hw)
    as (c0 & h & Hhd & Hfn & Hof & Hf & Hinv).
  eexists h, _, _. split; [done|]. split; [exact Hf|].
  split; [done|]. split; [done|]. split; [exact Hfn|]. split; [done|].
  split; [done|]. simpl. by rewrite last_cons, last_snoc.
Qed.


(** C10. When the data row itself has a column named ['schema'], the cell
    written under the ['schema'] header column (the first one) is the value
    of that column of the row, not the source identifier. *)
Theorem schema_column_overrides_source open_error o tr st s r v st' :
  reaches open_error o tr st →
  r !! "schema" = Some v →
  write_row open_error o s r st = (inr tt, st') →
  make_row s r !! "schema" = Some v
  ∧ ∃ h f fn line,
      open_files st' !! group_value_of o r = Some h
      ∧ files st' !! h = Some f
      ∧ group_fieldnames st' !! group_value_of o r = Some fn
      ∧ fn !! 0 = Some "schema"
      ∧ last (f_lines f) = Some line
      ∧ line !! 0 = Some v.
Proof.
  intros Hr Hv Hw.
  assert (Hrow : make_row s r !! "schema" = Some v).
  { by rewrite make_row_lookup_schema, Hv. }
  split; [done|].
  destruct (write_row_lands _ _ _ _ _ _ _ Hr Hw)
    as (h & f & fn & Hof & Hfl & _ & _ & Hfn & Hhd & _ & Hlast).
  exists h, f, fn, (dict_to_list fn (make_row s r)).
  assert (H0 : fn !! 0 = Some "schema") by (by destruct fn; simplify_eq/=).
  split; [done|]. split; [done|]. split; [done|]. split; [done|].
  split; [done|].
  rewrite (dict_to_list_lookup _ _ 0 "schema") by done. by rewrite Hrow.
Qed.

(** C7 (amended). The row of a successful call is written to the file
    registered under its group key, opened in the output directory under
    the group's file name, where: with a single-file override the key is
    ['all'] and the name is the override; otherwise, with a grouping
    column, the key is the row's value in that column, or ['unknown'] when
    the row lacks it, and the name is [<column>_<str(key)>.csv]; otherwise
    the key is ['all'] and the name is the fixed ['schema_results.csv']. *)
Theorem group_key_and_file_name open_error o tr st s r st' :
  reaches open_error o tr st →
  write_row open_error o s r st = (inr tt, st') →
  ∃ key fname h f fn,
    open_files st' !! key = Some h
    ∧ files st' !! h = Some f
    ∧ f_path f = os_path_join (output_dir o) fname
    ∧ group_fieldnames st' !! key = Some fn
    ∧ last (f_lines f) = Some (dict_to_list fn (make_row s r))
    ∧ (∀ name, single_file_name o = Some name → name ≠ "" →
         key = VStr "all" ∧ fname = name)
    ∧ (∀ c, truthy (single_file_name o) = false →
         group_column o = Some c → c ≠ "" →
         key = default (VStr "unknown") (r !! c)
         ∧ fname = c +:+ "_" +:+ py_str key +:+ ".csv")
    ∧ (truthy (single_file_name o) = false →
       truthy (group_column o) = false →
       key = VStr "all" ∧ fname = "schema_results.csv").
Proof.
  intros Hr Hw.
  destruct (write_row_lands _ _ _ _ _ _ _ Hr Hw)
    as (h & f & fn & Hof & Hfl & Hpath & _ & Hfn & _ & _ & Hlast).
  exists (group_value_of o r), (filename_of o (group_value_of o r)), h, f, fn.
  split; [done|]. split; [done|]. split; [done|]. split; [done|].
  split; [done|]. unfold group_value_of, filename_of, dict_get, the.
  split; [|split].
  - intros name Hn Hne. by rewrite Hn, truthy_Some.
  - intros c Hs Hc Hne. by rewrite Hs, Hc, truthy_Some.
  - intros Hs Hc. by rewrite Hs, Hc.
Qed.

(** ** The per-source fetch *)

Lemma dict_of_pairs_fresh (l : list (string * value)) (d : row) k :
  k ∉ l.*1 → foldl (λ d kv, <[kv.1 := kv.2]> d) d l !! k = d !! k.
Proof.
  revert d. induction l as [|[k' v'] l IH]; intros d Hk; [done|].
  simpl in *. apply not_elem_of_cons in Hk as [Hne Hk].
  rewrite IH by done. by rewrite lookup_insert_ne.
Qed.

Lemma dict_of_pairs_elem (l : list (string * value)) (d : row) k v :
  NoDup l.*1 → (k, v) ∈ l →
  foldl (λ d kv, <[kv.1 := kv.2]> d) d l !! k = Some v.
Proof.
  revert d. induction l as [|[k' v'] l IH]; intros d Hnd Hin.
  - by apply elem_of_nil in Hin.
  - simpl in *. apply NoDup_cons in Hnd as [Hk' Hnd].
    apply elem_of_cons in Hin as [Heq|Hin].
    + simplify_eq. rewrite dict_of_pairs_fresh by done.
      by rewrite lookup_insert_eq.
    + by apply IH.
Qed.

(** With distinct column names, the dictionary of a result row maps each
    column to the value at the same position. *)
Lemma dict_of_pairs_zip columns (r : list value) i c v :
  NoDup columns → length columns = length r →
  columns !! i = Some c → r !! i = Some v →
  dict_of_pairs (zip columns r) !! c = Some v.
Proof.
  intros Hnd Hlen Hc Hv. apply dict_of_pairs_elem.
  - rewrite fst_zip by lia. done.
  - apply list_elem_of_lookup. exists i.
    rewrite lookup_zip_with, Hc. simpl. by rewrite Hv.
Qed.

(** The keys of the dictionary are first components of the pairs. *)
Lemma dict_of_pairs_keys (l : list (string * value)) k :
  is_Some (dict_of_pairs l !! k) → k ∈ l.*1.
Proof.
  intros Hk. destruct (decide (k ∈ l.*1)) as [|Hn]; [done|].
  unfold dict_of_pairs in Hk. rewrite dict_of_pairs_fresh in Hk by done.
  rewrite lookup_empty in Hk. by destruct Hk.
Qed.

(** One failing path of the worker: the handler's result is an error. *)
Ltac fetch_case :=
  eexists _, _; (split; [reflexivity|]); rewrite ?lookup_delete_eq;
  repeat split; try done; intros; simplify_eq; eauto; try congruence;
  repeat match goal with
         | H : _ ∨ _ |- _ => destruct H
         | H : ∃ _, _ |- _ => destruct H
         | H : is_Some _ |- _ => destruct H
         end;
  simplify_eq; eauto; try congruence.

(** The worker returns, for its own source, with a row count that is the
    number of dictionaries it carries. *)
Lemma fetch_from_schema_result env others creds query now σ :
  ∃ res σ',
    fetch_from_schema env others creds query now σ = (inr res, σ')
    ∧ result_schema res = database_name creds
    ∧ ∀ nm n data, res = Success nm n data → n = length data.
Proof.
  unfold fetch_from_schema, try_except, bind, modify, interleave, clean_up,
    subscript, lift, raise, ret. simpl.
  destruct (pymysql_connect env creds) as [e|conn].
  { destruct (is_pymysql_error e); simpl; eexists _, _;
      (split; [reflexivity|]); split; try done. }
  destruct (others 0 _ !! _) as [t|]; simpl;
    [|eexists _, _; (split; [reflexivity|]); split; done].
  destruct (conn_execute conn query) as [e|cur]; simpl;
    [eexists _, _; (split; [reflexivity|]); split; done|].
  destruct (rs_description cur) as [cols|]; simpl;
    [|eexists _, _; (split; [reflexivity|]); split; done].
  destruct (rs_fetchall cur) as [e|rows]; simpl;
    [eexists _, _; (split; [reflexivity|]); split; done|].
  destruct (rs_close cur) as [e|]; simpl;
    [eexists _, _; (split; [reflexivity|]); split; done|].
  destruct (conn_close conn) as [e|]; simpl;
    [eexists _, _; (split; [reflexivity|]); split; done|].
  eexists _, _. split; [reflexivity|]. split; [done|].
  intros nm n data ?. by simplify_eq.
Qed.

(** C6. The per-source fetch always returns a result for its own source
    and never raises, whatever the servers answer and whatever the other
    workers do to the table of active workers; it leaves no entry of its
    own in that table. A failure to connect, or any failure while
    executing, reading or closing, gives an error result. A success result
    is only given when every step succeeded, and then carries one
    dictionary per row of the result set, in the order of the result set,
    whose keys are column names and which, when the column names are
    distinct and the row has one value per column, binds every column to
    the value of the row at its position; when every step succeeds and the
    worker's entry is still in the table, the result is that success. *)
Theorem fetch_from_schema_returns env others creds query now σ :
  let name := database_name creds in
  let mk := λ cols (rows : list (list value)),
              (λ r, dict_of_pairs (zip cols r)) <$> rows in
  ∃ res σ',
    fetch_from_schema env others creds query now σ = (inr res, σ')
    ∧ result_schema res = name
    ∧ σ' !! ("Worker-" +:+ name) = None
    ∧ (∀ e, pymysql_connect env creds = inl e →
         res = Error name
                 (if is_pymysql_error e
                  then "Connection timeout after 15s: " +:+ exn_msg e
                  else exn_msg e))
    ∧ (∀ conn e, pymysql_connect env creds = inr conn →
         conn_execute conn query = inl e → ∃ msg, res = Error name msg)
    ∧ (∀ conn cur, pymysql_connect env creds = inr conn →
         conn_execute conn query = inr cur →
         rs_description cur = None ∨ (∃ e, rs_fetchall cur = inl e)
         ∨ is_Some (rs_close cur) ∨ is_Some (conn_close conn) →
         ∃ msg, res = Error name msg)
    ∧ (∀ nm n data, res = Success nm n data →
         ∃ conn cur cols rows,
           pymysql_connect env creds = inr conn
           ∧ conn_execute conn query = inr cur
           ∧ rs_description cur = Some cols
           ∧ rs_fetchall cur = inr rows
           ∧ nm = name ∧ n = length rows ∧ data = mk cols rows
           ∧ (∀ i, data !! i = (λ r, dict_of_pairs (zip cols r)) <$> rows !! i)
           ∧ length data = length rows
           ∧ ∀ i r, rows !! i = Some r →
               ∃ d, data !! i = Some d
                    ∧ (∀ c, is_Some (d !! c) → c ∈ cols)
                    ∧ (NoDup cols → length cols = length r →
                       ∀ j c v, cols !! j = Some c → r !! j = Some v →
                                d !! c = Some v))
    ∧ (∀ conn cur cols rows,
         pymysql_connect env creds = inr conn →
         is_Some (others 0 (<["Worker-" +:+ name
                               := ThreadInfo name Connecting now]> σ)
                    !! ("Worker-" +:+ name)) →
         conn_execute conn query = inr cur →
         rs_description cur = Some cols →
         rs_fetchall cur = inr rows →
         rs_close cur = None → conn_close conn = None →
         res = Success name (length rows) (mk cols rows)).
Proof.
  intros name mk.
  unfold fetch_from_schema, try_except, bind, modify, interleave, clean_up,
    subscript, lift, raise, ret. fold name. simpl.
  destruct (pymysql_connect env creds) as [e|conn] eqn:Hconn.
  { destruct (is_pymysql_error e) eqn:Hpy; simpl; fetch_case; by rewrite Hpy. }
  destruct (others 0 _ !! _) as [t|] eqn:Ht; simpl; [|fetch_case].
  destruct (conn_execute conn query) as [e|cur] eqn:Hex; simpl; [fetch_case|].
  destruct (rs_description cur) as [cols|] eqn:Hd; simpl; [|fetch_case].
  destruct (rs_fetchall cur) as [e|rows] eqn:Hfa; simpl; [fetch_case|].
  destruct (rs_close cur) as [e|] eqn:Hrc; simpl; [fetch_case|].
  destruct (conn_close conn) as [e|] eqn:Hcc; simpl; [fetch_case|].
  eexists _, _. split; [reflexivity|]. rewrite lookup_delete_eq.
  split; [done|]. split; [done|]. split; [intros; simplify_eq|].
  split; [intros; simplify_eq; congruence|].
  split.
  { intros conn' cur' ? ? Hor. simplify_eq.
    destruct Hor as [?|[[e ?]|[[e ?]|[e ?]]]]; congruence. }
  split.
  - intros nm n data ?. simplify_eq. exists conn, cur, cols, rows.
    rewrite length_fmap.
    split; [done|]. split; [done|]. split; [done|]. split; [done|].
    split; [done|]. split; [done|]. split; [done|].
    split; [intros i; by rewrite list_lookup_fmap|]. split; [done|].
    intros i r Hr. exists (dict_of_pairs (zip cols r)).
    split; [by rewrite list_lookup_fmap, Hr|]. split.
    + intros c Hc. apply (dict_of_pairs_keys (zip cols r)) in Hc.
      apply list_elem_of_fmap in Hc as ([c' v] & -> & Hin).
      by apply elem_of_zip_l in Hin.
    + intros Hnd Hlen j c v Hc Hv. by eapply dict_of_pairs_zip.
  - intros conn' cur' cols' rows' Hc' _ Hex' Hd' Hfa' _ _.
    assert (conn' = conn) as -> by congruence.
    assert (cur' = cur) as -> by congruence.
    assert (cols' = cols) as -> by congruence.
    assert (rows' = rows) as -> by congruence.
    by rewrite length_fmap.
Qed.

(** ** The completion loop *)

Section Loop.
Variable open_error : string → option exn.
Variable o : options.

(** The rows of one source: they are written in order up to the first
    one whose group cannot be opened, which ends the source. *)
Lemma for_each_write_row s data tr st :
  reaches open_error o tr st →
  ∃ n st' res,
    for_each data (write_row open_error o s) st = (res, st')
    ∧ reaches open_error o (tr ++ (pair s <$> take n data)) st'
    ∧ match res with
      | inr _ => n = length data
      | inl e => ∃ r, data !! n = Some r
                      ∧ open_error (path_of o (group_value_of o r)) = Some e
      end.
Proof.
  revert tr st. induction data as [|r data IH]; intros tr st Hr.
  - exists 0, st, (inr tt). simpl. by rewrite app_nil_r.
  - simpl. unfold bind.
    destruct (write_row_inv open_error o tr st s r (reaches_inv _ _ _ _ Hr))
      as [(st1 & Hw & _ & _)|(e & Hw & _ & He)]; rewrite Hw.
    + assert (Hr1 : reaches open_error o (tr ++ [(s, r)]) st1)
        by (eapply steps_ok; eauto).
      destruct (IH _ _ Hr1) as (n & st' & res & Hfe & Hr' & Hres).
      exists (S n), st', res. simpl. rewrite Hfe.
      split; [done|]. split.
      * by rewrite <- app_assoc in Hr'.
      * destruct res; [done|]. by rewrite Hres.
    + exists 0, st, (inl e). simpl. rewrite app_nil_r. eauto.
Qed.

(** When every file opens, all the rows of the source are written. *)
Lemma for_each_write_row_ok s data tr st :
  (∀ p, open_error p = None) →
  reaches open_error o tr st →
  ∃ st',
    for_each data (write_row open_error o s) st = (inr tt, st')
    ∧ reaches open_error o (tr ++ (pair s <$> data)) st'.
Proof.
  intros Hok Hr.
  destruct (for_each_write_row s data tr st Hr) as (n & st' & res & Hfe & Hr' & Hres).
  destruct res as [e|[]].
  - destruct Hres as (r & _ & He). rewrite Hok in He. done.
  - subst n. rewrite firstn_all in Hr'. eauto.
Qed.

(** One future: the registry stays reachable and the success count
    grows exactly when the source succeeded. *)
Lemma process_future_reaches t fut tr :
  reaches open_error o tr (writer t) →
  ∃ tr',
    reaches open_error o (tr ++ tr') (writer (process_future open_error o t fut))
    ∧ success_count (process_future open_error o t fut)
      = success_count t + (if future_success fut then 1 else 0).
Proof.
  intros Hr. unfold process_future, future_success.
  destruct (fut_outcome fut) as [e|[nm n data|nm msg]]; simpl.
  - exists []. rewrite app_nil_r. split; [done|lia].
  - destruct (for_each_write_row (fut_schema fut) data tr (writer t) Hr)
      as (k & st' & res & Hfe & Hr' & _).
    rewrite Hfe. destruct res; simpl; eauto.
  - exists []. rewrite app_nil_r. split; [done|lia].
Qed.

(** One future, when every file opens: its rows are all written, and it
    is tallied as a success or as an error, never both. *)
Lemma process_future_ok t fut tr :
  (∀ p, open_error p = None) →
  reaches open_error o tr (writer t) →
  let t' := process_future open_error o t fut in
  reaches open_error o (tr ++ future_calls fut) (writer t')
  ∧ success_count t' = success_count t + (if future_success fut then 1 else 0)
  ∧ error_count t' = error_count t + (if future_success fut then 0 else 1)
  ∧ errors t' = errors t ++ option_list (future_error fut).
Proof.
  intros Hok Hr. unfold process_future, future_success, future_calls, future_error.
  destruct (fut_outcome fut) as [e|[nm n data|nm msg]]; simpl.
  - rewrite app_nil_r. repeat split; try done; lia.
  - destruct (for_each_write_row_ok (fut_schema fut) data tr (writer t) Hok Hr)
      as (st' & Hfe & Hr').
    rewrite Hfe. simpl. rewrite app_nil_r. repeat split; try done; lia.
  - rewrite app_nil_r. repeat split; try done; lia.
Qed.

Lemma loop_reaches futs t tr :
  reaches open_error o tr (writer t) →
  ∃ tr',
    reaches open_error o (tr ++ tr')
      (writer (foldl (process_future open_error o) t futs))
    ∧ success_count (foldl (process_future open_error o) t futs)
      = success_count t + sources_succeeded futs.
Proof.
  revert t tr. induction futs as [|fut futs IH]; intros t tr Hr.
  - exists []. rewrite app_nil_r. split; [done|]. unfold sources_succeeded. simpl. lia.
  - simpl. destruct (process_future_reaches t fut tr Hr) as (tr1 & Hr1 & Hs1).
    destruct (IH _ _ Hr1) as (tr2 & Hr2 & Hs2).
    exists (tr1 ++ tr2). rewrite app_assoc. split; [done|].
    rewrite Hs2, Hs1. unfold sources_succeeded. rewrite filter_cons.
    destruct (future_success fut); simpl; lia.
Qed.

Lemma loop_ok futs t tr :
  (∀ p, open_error p = None) →
  reaches open_error o tr (writer t) →
  let t' := foldl (process_future open_error o) t futs in
  reaches open_error o (tr ++ (futs ≫= future_calls)) (writer t')
  ∧ success_count t' = success_count t + sources_succeeded futs
  ∧ error_count t' = error_count t + sources_failed futs
  ∧ errors t' = errors t ++ omap future_error futs.
Proof.
  intros Hok. revert t tr. induction futs as [|fut futs IH]; intros t tr Hr.
  - simpl. rewrite !app_nil_r. unfold sources_succeeded, sources_failed. simpl.
    repeat split; try done; lia.
  - simpl. destruct (process_future_ok t fut tr Hok Hr) as (Hr1 & Hs1 & He1 & Hl1).
    destruct (IH _ _ Hr1) as (Hr2 & Hs2 & He2 & Hl2).
    rewrite <- app_assoc in Hr2. split; [done|].
    rewrite Hs2, He2, Hl2, Hs1, He1, Hl1.
    unfold sources_succeeded, sources_failed. rewrite !filter_cons.
    unfold future_success, future_error.
    destruct (fut_outcome fut) as [e|[nm n data|nm msg]]; simpl;
      rewrite <- ?app_assoc, ?app_nil_r; repeat split; try done; lia.
Qed.
End Loop.

(** ** Row counts *)

Lemma sum_values_empty : sum_values ∅ = 0.
Proof. unfold sum_values. by rewrite map_to_list_empty. Qed.

Lemma sum_values_insert_fresh (m : gmap value nat) g n :
  m !! g = None → sum_values (<[g := n]> m) = n + sum_values m.
Proof.
  intros Hg. unfold sum_values. by rewrite map_to_list_insert.
Qed.

Lemma sum_values_insert (m : gmap value nat) g c n :
  m !! g = Some c → sum_values (<[g := n]> m) + c = n + sum_values m.
Proof.
  intros Hg. rewrite <- (insert_delete_eq m g n).
  rewrite <- (insert_id m g c) at 2 by done.
  rewrite <- (insert_delete_eq m g c).
  rewrite !sum_values_insert_fresh by apply lookup_delete_eq. lia.
Qed.

Section Counts.
Variable open_error : string → option exn.
Variable o : options.

(** Each call that returns normally adds one to the total of the counts. *)
Lemma write_row_count tr st s r st' :
  reg_inv o tr st →
  write_row open_error o s r st = (inr tt, st') →
  sum_values (group_row_counts st') = S (sum_values (group_row_counts st)).
Proof.
  intros Hinv Hw. pose proof (inv_groups _ _ _ Hinv (group_value_of o r)) as Hg.
  destruct (written_to o (group_value_of o r) tr) as [|c0 cs]; simpl in Hg.
  - destruct Hg as (Hgw & Hfn & Hc & Hof).
    destruct (open_error (path_of o (group_value_of o r))) as [e|] eqn:He.
    + rewrite (write_row_new_raise open_error o s r st e) in Hw by done. done.
    + rewrite (write_row_new_ok open_error o s r st) in Hw by done.
      simplify_eq. simpl. rewrite sum_values_insert_fresh by done. lia.
  - destruct Hg as (h & Hgw & Hfn & Hc & Hof & Hf).
    erewrite write_row_known in Hw; [|done..].
    simplify_eq. simpl.
    pose proof (sum_values_insert _ _ _ (length (c0 :: cs) + 1) Hc). simpl in *. lia.
Qed.

(** The total of the per-group counts is the number of rows written. *)
Lemma reaches_count tr st :
  reaches open_error o tr st → sum_values (group_row_counts st) = length tr.
Proof.
  unfold reaches. remember empty_registry as st0 eqn:Hst0.
  induction 1 as [|st0 tr st1 s r st2 Hs IH Hw|st0 tr st1 s r e st2 Hs IH Hw];
    subst.
  - apply sum_values_empty.
  - rewrite length_app. simpl.
    erewrite write_row_count; [|by eapply reaches_inv|done].
    rewrite IH by done. lia.
  - destruct (write_row_inv open_error o tr st1 s r (reaches_inv _ _ _ _ Hs))
      as [(st' & Hw' & _)|(e' & Hw' & _)]; rewrite Hw in Hw'; simplify_eq.
    by apply IH.
Qed.

(** The count of a group is the number of records in its file. *)
Lemma group_count_is_file_rows tr st g n :
  reaches open_error o tr st →
  group_row_counts st !! g = Some n →
  n = length (written_to o g tr)
  ∧ ∃ h f, open_files st !! g = Some h ∧ files st !! h = Some f
           ∧ length (f_lines f) = S n.
Proof.
  intros Hr Hn. pose proof (inv_groups _ _ _ (reaches_inv _ _ _ _ Hr) g) as Hg.
  destruct (written_to o g tr) as [|c0 cs]; simpl in Hg.
  - destruct Hg as (_ & _ & Hc & _). congruence.
  - destruct Hg as (h & _ & _ & Hc & Hof & Hf). simplify_eq.
    split; [done|]. eexists _, _. split; [done|]. split; [done|].
    simpl. by rewrite length_fmap.
Qed.
End Counts.

(** ** Closing the files *)

Lemma close_file_length h fs : length (close_file h fs) = length fs.
Proof. apply length_alter. Qed.

Lemma close_file_lookup h fs i f :
  close_file h fs !! i = Some f →
  ∃ f0, fs !! i = Some f0 ∧ f_path f = f_path f0 ∧ f_lines f = f_lines f0
        ∧ (f_closed f = true ∨ (i ≠ h ∧ f = f0)).
Proof.
  unfold close_file. destruct (decide (h = i)) as [->|Hne].
  - rewrite list_lookup_alter, decide_True by done.
    destruct (fs !! i) as [f0|]; [|done]. simpl. intros ?. simplify_eq.
    exists f0. simpl. eauto.
  - rewrite list_lookup_alter_ne by done. intros Hf. exists f.
    split; [done|]. split; [done|]. split; [done|]. right. eauto.
Qed.

Lemma close_files_lookup hs fs i f :
  (foldr close_file fs hs) !! i = Some f →
  ∃ f0, fs !! i = Some f0 ∧ f_path f = f_path f0 ∧ f_lines f = f_lines f0
        ∧ (f_closed f = true ∨ ((i ∉ hs) ∧ f = f0)).
Proof.
  revert f. induction hs as [|h hs IH]; intros f; simpl.
  - intros Hf. exists f. repeat split; try done. right. split; [|done].
    apply not_elem_of_nil.
  - intros Hf. apply close_file_lookup in Hf as (f1 & Hf1 & Hp & Hl & Hc).
    apply IH in Hf1 as (f0 & Hf0 & Hp0 & Hl0 & Hc0).
    exists f0. split; [done|]. split; [congruence|]. split; [congruence|].
    destruct Hc as [?|[Hne ->]]; [by left|].
    destruct Hc0 as [?|[Hni ->]]; [by left|]. right. split; [|done].
    apply not_elem_of_cons. done.
Qed.

(** Closing keeps every file, its path and its content, and closes all
    the files that the registry knows. *)
Lemma close_all_spec o tr st :
  reg_inv o tr st →
  group_row_counts (close_all st) = group_row_counts st
  ∧ group_fieldnames (close_all st) = group_fieldnames st
  ∧ open_files (close_all st) = open_files st
  ∧ length (files (close_all st)) = length (files st)
  ∧ ∀ h f, files st !! h = Some f →
      files (close_all st) !! h = Some (File (f_path f) (f_lines f) true).
Proof.
  intros Hinv. unfold close_all. simpl.
  split; [done|]. split; [done|]. split; [done|]. split.
  { generalize ((map_to_list (open_files st)).*2). intros hs.
    induction hs as [|h hs IH]; simpl; [done|]. by rewrite close_file_length. }
  intros h f Hf.
  assert (Hlt : h < length (files st)) by (by eapply lookup_lt_Some).
  destruct (inv_handles _ _ _ Hinv h Hlt) as [g Hg].
  assert (Hin : h ∈ (map_to_list (open_files st)).*2).
  { apply list_elem_of_fmap. exists (g, h). split; [done|].
    by apply elem_of_map_to_list. }
  destruct ((foldr close_file (files st) (map_to_list (open_files st)).*2) !! h)
    as [f'|] eqn:Hf'.
  - apply close_files_lookup in Hf' as (f0 & Hf0 & Hp & Hl & Hc).
    simplify_eq. destruct Hc as [Hc|[Hni _]]; [|done].
    destruct f' as [p l c]. simpl in *. by subst.
  - apply lookup_ge_None in Hf'.
    assert (length (foldr close_file (files st) (map_to_list (open_files st)).*2)
            = length (files st)) as Hlen.
    { generalize ((map_to_list (open_files st)).*2). intros hs.
      induction hs as [|h' hs IH]; simpl; [done|]. by rewrite close_file_length. }
    lia.
Qed.

(** ** The run *)

Lemma length_bind_calls (futs : list future) :
  length (futs ≫= future_calls) = sum_list_with (λ fut, length (future_calls fut)) futs.
Proof.
  induction futs as [|fut futs IH]; [done|].
  rewrite bind_cons, length_app, IH. done.
Qed.

(** What the pool hands back for a source: a result, never an exception,
    filed under the source's name, with a row count that is the number of
    rows it carries. *)
Lemma submit_outcome env sched query i creds :
  ∃ res,
    fut_outcome (submit env sched query i creds) = inr res
    ∧ fut_schema (submit env sched query i creds) = database_name creds
    ∧ result_schema res = database_name creds
    ∧ future_row_count (submit env sched query i creds)
      = length (future_calls (submit env sched query i creds)).
Proof.
  destruct (fetch_from_schema_result env (task_others sched i) creds query
              (task_now sched i) (task_threads sched i))
    as (res & σ' & Heq & Hsch & Hsucc).
  exists res. unfold submit, future_row_count, future_calls. simpl.
  rewrite Heq. simpl. split; [done|]. split; [done|]. split; [done|].
  destruct res as [nm n data|nm msg]; [|done].
  rewrite (Hsucc nm n data eq_refl). by rewrite length_fmap.
Qed.

Lemma run_futures_spec env sched query cl fut :
  fut ∈ run_futures env sched query cl →
  (∃ res, fut_outcome fut = inr res ∧ result_schema res = fut_schema fut)
  ∧ future_row_count fut = length (future_calls fut).
Proof.
  unfold run_futures. intros Hin.
  apply list_elem_of_lookup in Hin as [i Hi].
  rewrite list_lookup_imap in Hi.
  destruct (cl !! i) as [creds|]; [|done]. simpl in Hi. simplify_eq.
  destruct (submit_outcome env sched query i creds) as (res & Ho & Hs & Hr & Hn).
  split; [|done]. exists res. split; [done|]. congruence.
Qed.

Lemma length_run_futures env sched query cl :
  length (run_futures env sched query cl) = length cl.
Proof. unfold run_futures. apply length_imap. Qed.

Lemma rows_returned_calls env sched query cl :
  rows_returned (run_futures env sched query cl)
  = length (run_futures env sched query cl ≫= future_calls).
Proof.
  rewrite length_bind_calls. unfold rows_returned.
  assert (H : ∀ fut, fut ∈ run_futures env sched query cl →
                future_row_count fut = length (future_calls fut))
    by (intros fut Hin; by apply run_futures_spec in Hin as [_ ?]).
  revert H. generalize (run_futures env sched query cl). intros futs H.
  induction futs as [|fut futs IH]; [done|]. simpl.
  rewrite H by (apply elem_of_cons; by left). rewrite IH; [done|].
  intros f Hf. apply H. apply elem_of_cons. by right.
Qed.

Lemma succeeded_plus_failed futs :
  sources_succeeded futs + sources_failed futs = length futs.
Proof.
  unfold sources_succeeded, sources_failed.
  induction futs as [|fut futs IH]; [done|]. rewrite !filter_cons.
  destruct (future_success fut); simpl in *; lia.
Qed.

Lemma length_omap_future_error futs :
  length (omap future_error futs) = sources_failed futs.
Proof.
  unfold sources_failed. induction futs as [|fut futs IH]; [done|].
  rewrite filter_cons. simpl. unfold future_error, future_success in *.
  destruct (fut_outcome fut) as [e|[nm n data|nm msg]]; simpl in *;
    first [exact IH | f_equal; exact IH].
Qed.

Lemma thread_pool_positive mw : thread_pool mw = None ↔ (0 < mw)%Z.
Proof.
  unfold thread_pool. destruct (Z.leb_spec mw 0); split; intros; try done; lia.
Qed.

(** A run either passes the three steps before the loop, or raises
    there, having opened no file and counted nothing. *)
Lemma fetch_all_schemas_setup env sched mw errs query o :
  (∃ cl, get_schema_credentials env = inr cl
         ∧ os_makedirs env (output_dir o) = None
         ∧ (0 < mw)%Z
         ∧ completed env sched mw query o
           = as_completed sched (run_futures env sched query cl))
  ∨ (∃ e, fetch_all_schemas env sched mw errs query o
          = (inl e, Tally 0 0 errs empty_registry)
          ∧ completed env sched mw query o = []).
Proof.
  unfold fetch_all_schemas, completed.
  destruct (get_schema_credentials env) as [e|cl]; [right; eauto|].
  destruct (os_makedirs env (output_dir o)) as [e|]; [right; eauto|].
  destruct (thread_pool mw) as [e|] eqn:Hmw; [right; eauto|].
  left. exists cl. apply thread_pool_positive in Hmw. done.
Qed.

(** The shape of the result of a run that reached the loop. *)
Lemma fetch_all_schemas_unfold env sched mw errs query o cl :
  get_schema_credentials env = inr cl →
  os_makedirs env (output_dir o) = None →
  (0 < mw)%Z →
  let t := foldl (process_future (open_error env) o)
                 (Tally 0 0 errs empty_registry)
                 (as_completed sched (run_futures env sched query cl)) in
  (fetch_all_schemas env sched mw errs query o).2
    = Tally (success_count t) (error_count t) (errors t) (close_all (writer t))
  ∧ (fetch_all_schemas env sched mw errs query o).1
    = match log_group_counts (group_row_counts (writer t)) with
      | inl e => inl e
      | inr _ =>
          inr (RunSummary (length cl) (success_count t) (error_count t)
                 (end_time env - start_time env)
                 (sum_values (group_row_counts (writer t))) (errors t))
      end.
Proof.
  intros Hcl Hmk Hmw t. apply thread_pool_positive in Hmw.
  unfold fetch_all_schemas. rewrite Hcl, Hmk, Hmw.
  fold (run_futures env sched query cl).
  fold t. simpl. destruct (log_group_counts (group_row_counts (writer t))); done.
Qed.

(** A run that returns a summary reached the loop. *)
Lemma fetch_all_schemas_returned env sched mw errs query o s :
  (fetch_all_schemas env sched mw errs query o).1 = inr s →
  ∃ cl, get_schema_credentials env = inr cl
        ∧ os_makedirs env (output_dir o) = None
        ∧ (0 < mw)%Z.
Proof.
  intros Hs.
  destruct (fetch_all_schemas_setup env sched mw errs query o)
    as [(cl & ? & ? & ? & _)|(e & He & _)]; [eauto|].
  rewrite He in Hs. done.
Qed.

(** Whatever the sources and the file system do, the loop goes through
    every future and leaves a registry that write_row calls explain. *)
Lemma run_reaches env sched mw errs query o cl :
  get_schema_credentials env = inr cl →
  os_makedirs env (output_dir o) = None →
  (0 < mw)%Z →
  ∃ tr st,
    reaches (open_error env) o tr st
    ∧ writer (fetch_all_schemas env sched mw errs query o).2 = close_all st
    ∧ success_count (fetch_all_schemas env sched mw errs query o).2
      = sources_succeeded (as_completed sched (run_futures env sched query cl)).
Proof.
  intros Hcl Hmk Hmw.
  destruct (fetch_all_schemas_unfold env sched mw errs query o cl Hcl Hmk Hmw) as [-> _].
  destruct (loop_reaches (open_error env) o
              (as_completed sched (run_futures env sched query cl))
              (Tally 0 0 errs empty_registry) []) as (tr & Hr & Hs).
  { apply steps_refl. }
  simpl in *. eauto.
Qed.

Lemma close_all_empty : close_all empty_registry = empty_registry.
Proof.
  unfold close_all, empty_registry, set_files. simpl. by rewrite map_to_list_empty.
Qed.

(** However a run ends, its registry is one that write_row calls
    explain, with the files closed. *)
Lemma run_writer env sched mw errs query o :
  ∃ tr st,
    reaches (open_error env) o tr st
    ∧ writer (fetch_all_schemas env sched mw errs query o).2 = close_all st.
Proof.
  destruct (fetch_all_schemas_setup env sched mw errs query o)
    as [(cl & Hcl & Hmk & Hmw & _)|(e & -> & _)].
  - destruct (run_reaches env sched mw errs query o cl Hcl Hmk Hmw)
      as (tr & st & ? & ? & _). eauto.
  - exists [], empty_registry. split; [apply steps_refl|].
    simpl. by rewrite close_all_empty.
Qed.

(** When every file opens: each source is tallied once, as a success or
    as an error, the errors are recorded in arrival order after those
    already on the fetcher, and every row of every successful source is
    written. *)
Lemma run_tally env sched mw errs query o cl :
  get_schema_credentials env = inr cl →
  os_makedirs env (output_dir o) = None →
  (0 < mw)%Z →
  (∀ l, as_completed sched l ≡ₚ l) →
  (∀ p, open_error env p = None) →
  let futs := run_futures env sched query cl in
  let t := (fetch_all_schemas env sched mw errs query o).2 in
  ∃ st,
    reaches (open_error env) o (as_completed sched futs ≫= future_calls) st
    ∧ writer t = close_all st
    ∧ success_count t = sources_succeeded futs
    ∧ error_count t = sources_failed futs
    ∧ errors t = errs ++ omap future_error (as_completed sched futs)
    ∧ length (as_completed sched futs ≫= future_calls) = rows_returned futs.
Proof.
  intros Hcl Hmk Hmw Hperm Hok futs t. subst t.
  destruct (fetch_all_schemas_unfold env sched mw errs query o cl Hcl Hmk Hmw) as [-> _].
  fold futs.
  destruct (loop_ok (open_error env) o (as_completed sched futs)
              (Tally 0 0 errs empty_registry) [] Hok) as (Hr & Hs & He & Hl).
  { apply steps_refl. }
  simpl in *. eexists. split; [exact Hr|]. split; [done|].
  split. { rewrite Hs. unfold sources_succeeded. by rewrite (Hperm futs). }
  split. { rewrite He. unfold sources_failed. by rewrite (Hperm futs). }
  split; [done|].
  unfold futs. rewrite rows_returned_calls, !length_bind_calls.
  by rewrite (Hperm (run_futures env sched query cl)).
Qed.

Lemma reaches_files_open open_error o tr st h f :
  reaches open_error o tr st → files st !! h = Some f → f_closed f = false.
Proof.
  intros Hr Hf. apply reaches_inv in Hr.
  assert (Hlt : h < length (files st)) by (by eapply lookup_lt_Some).
  destruct (inv_handles _ _ _ Hr h Hlt) as [g Hg].
  pose proof (inv_groups _ _ _ Hr g) as Hgr.
  destruct (written_to o g tr) as [|c0 cs]; simpl in Hgr.
  - destruct Hgr as (_ & _ & _ & Hn). congruence.
  - destruct Hgr as (h' & _ & _ & _ & Hof & Hf'). by simplify_eq.
Qed.

(** C8. When the run-level operation ends, by returning its summary or by
    raising, every file in the table of opened files is closed: every
    file that was open when the loop over the sources ended is closed,
    with its path and content unchanged, whether sources failed, files
    could not be opened, or everything succeeded. *)
Theorem sinks_closed_after_run env sched mw errs query o :
  (∀ h f, files (writer (fetch_all_schemas env sched mw errs query o).2) !! h = Some f →
     f_closed f = true)
  ∧ ∃ tr st,
      reaches (open_error env) o tr st
      ∧ length (files (writer (fetch_all_schemas env sched mw errs query o).2))
        = length (files st)
      ∧ ∀ h f, files st !! h = Some f →
          f_closed f = false
          ∧ files (writer (fetch_all_schemas env sched mw errs query o).2) !! h
            = Some (File (f_path f) (f_lines f) true).
Proof.
  destruct (run_writer env sched mw errs query o) as (tr & st & Hr & Hw).
  rewrite Hw.
  destruct (close_all_spec o tr st (reaches_inv _ _ _ _ Hr)) as (_ & _ & _ & Hlen & Hcl).
  split.
  - intros h f Hf.
    assert (Hlt : h < length (files st)).
    { rewrite <- Hlen. by eapply lookup_lt_Some. }
    destruct (lookup_lt_is_Some_2 _ _ Hlt) as [f0 Hf0].
    rewrite (Hcl h f0 Hf0) in Hf. by simplify_eq.
  - exists tr, st. split; [done|]. split; [done|].
    intros h f Hf. split; [by eapply reaches_files_open|by apply Hcl].
Qed.

(** ** The summary *)

Lemma rows_returned_Permutation futs futs' :
  futs ≡ₚ futs' → rows_returned futs = rows_returned futs'.
Proof.
  unfold rows_returned. induction 1; simpl; lia.
Qed.

(** C3 (amended). Provided every output file can be opened: at the end of
    a run the per-group row counts add up to the sum of the row counts
    returned by the successful sources (those of the futures that the
    loop went through: none when the run raised before the loop, all the
    sources otherwise), each group's count is the number of records in
    the group's file, and a summary that is returned reports that total
    as [total_rows_written]; a summary is returned when the output
    directory can be created, the pool size is positive and the group
    keys have one type. *)
Theorem total_rows_written_is_rows_returned env sched mw errs query o cl :
  get_schema_credentials env = inr cl →
  (∀ l, as_completed sched l ≡ₚ l) →
  (∀ p, open_error env p = None) →
  sum_values (group_row_counts (writer (fetch_all_schemas env sched mw errs query o).2))
    = rows_returned (completed env sched mw query o)
  ∧ (os_makedirs env (output_dir o) = None → (0 < mw)%Z →
     sum_values
       (group_row_counts (writer (fetch_all_schemas env sched mw errs query o).2))
     = rows_returned (run_futures env sched query cl))
  ∧ (∀ g n,
       group_row_counts (writer (fetch_all_schemas env sched mw errs query o).2) !! g
         = Some n →
       ∃ h f,
         open_files (writer (fetch_all_schemas env sched mw errs query o).2) !! g = Some h
         ∧ files (writer (fetch_all_schemas env sched mw errs query o).2) !! h = Some f
         ∧ length (f_lines f) = S n)
  ∧ (∀ s, (fetch_all_schemas env sched mw errs query o).1 = inr s →
       total_rows_written s = rows_returned (run_futures env sched query cl))
  ∧ (os_makedirs env (output_dir o) = None → (0 < mw)%Z →
     same_type_keys
       (map_to_list
          (group_row_counts (writer (fetch_all_schemas env sched mw errs query o).2))).*1
       = true →
     ∃ s, (fetch_all_schemas env sched mw errs query o).1 = inr s).
Proof.
  intros Hcl Hperm Hok.
  assert (Hrun : os_makedirs env (output_dir o) = None → (0 < mw)%Z →
    sum_values (group_row_counts (writer (fetch_all_schemas env sched mw errs query o).2))
      = rows_returned (run_futures env sched query cl)
    ∧ (∀ g n,
         group_row_counts (writer (fetch_all_schemas env sched mw errs query o).2) !! g
           = Some n →
         ∃ h f,
           open_files (writer (fetch_all_schemas env sched mw errs query o).2) !! g
             = Some h
           ∧ files (writer (fetch_all_schemas env sched mw errs query o).2) !! h = Some f
           ∧ length (f_lines f) = S n)
    ∧ (∀ s, (fetch_all_schemas env sched mw errs query o).1 = inr s →
         total_rows_written s = rows_returned (run_futures env sched query cl))
    ∧ (same_type_keys
         (map_to_list
            (group_row_counts
               (writer (fetch_all_schemas env sched mw errs query o).2))).*1 = true →
       ∃ s, (fetch_all_schemas env sched mw errs query o).1 = inr s)).
  { intros Hmk Hmw.
    destruct (run_tally env sched mw errs query o cl Hcl Hmk Hmw Hperm Hok)
      as (st & Hr & Hw & _ & _ & _ & Hlen).
    destruct (close_all_spec o _ st (reaches_inv _ _ _ _ Hr))
      as (Hc & _ & Hof & _ & Hfiles).
    pose proof (reaches_count _ _ _ _ Hr) as Hsum.
    destruct (fetch_all_schemas_unfold env sched mw errs query o cl Hcl Hmk Hmw)
      as [Ht H1].
    rewrite Ht in Hw |- *. cbn [writer] in Hw |- *.
    rewrite Hw, Hc, Hof. split; [by rewrite Hsum|]. split.
    { intros g n Hn.
      destruct (group_count_is_file_rows _ _ _ _ g n Hr Hn) as (_ & h & f & ? & Hf & ?).
      eexists h, _. split; [done|]. split; [by apply Hfiles|done]. }
    assert (Hcounts : group_row_counts
              (writer (foldl (process_future (open_error env) o)
                         (Tally 0 0 errs empty_registry)
                         (as_completed sched (run_futures env sched query cl))))
            = group_row_counts st).
    { assert (Hcc : ∀ r, group_row_counts (close_all r) = group_row_counts r) by done.
      rewrite <- (Hcc (writer _)). by rewrite Hw. }
    rewrite H1, Hcounts. unfold log_group_counts. split.
    - intros s Hs. destruct (same_type_keys _); simplify_eq. simpl. by rewrite Hsum.
    - intros ->. eauto. }
  destruct (fetch_all_schemas_setup env sched mw errs query o)
    as [(cl' & Hcl' & Hmk & Hmw & Hcompl)|(e & He & Hcompl)].
  - assert (cl' = cl) as -> by congruence.
    destruct (Hrun Hmk Hmw) as (H1 & H2 & H3 & H4).
    split. { rewrite Hcompl, H1. symmetry. by apply rows_returned_Permutation. }
    split; [by intros _ _|]. split; [done|]. split; [done|]. by intros _ _.
  - split. { by rewrite He, Hcompl. }
    split. { intros Hmk Hmw. by destruct (Hrun Hmk Hmw). }
    split. { rewrite He. simpl. intros g n Hg. by rewrite lookup_empty in Hg. }
    split. { rewrite He. done. }
    intros Hmk Hmw. by destruct (Hrun Hmk Hmw) as (_ & _ & _ & ?).
Qed.


(** When the run reaches its loop, every file opens and the group keys
    have one type, the run returns a summary in which each source counts
    once: [failed] is the number of failed sources, [successful] the
    number of the others, and the failures are listed. *)
Lemma run_isolation env sched mw errs query o cl :
  get_schema_credentials env = inr cl →
  os_makedirs env (output_dir o) = None →
  (0 < mw)%Z →
  (∀ l, as_completed sched l ≡ₚ l) →
  (∀ p, open_error env p = None) →
  same_type_keys
    (map_to_list
       (group_row_counts (writer (fetch_all_schemas env sched mw errs query o).2))).*1
    = true →
  ∃ s,
    (fetch_all_schemas env sched mw errs query o).1 = inr s
    ∧ total_schemas s = length cl
    ∧ failed s = sources_failed (run_futures env sched query cl)
    ∧ successful s = length cl - sources_failed (run_futures env sched query cl)
    ∧ summary_errors s
      = errs ++ omap future_error (as_completed sched (run_futures env sched query cl))
    ∧ total_rows_written s = rows_returned (run_futures env sched query cl).
Proof.
  intros Hcl Hmk Hmw Hperm Hok Hkeys.
  destruct (run_tally env sched mw errs query o cl Hcl Hmk Hmw Hperm Hok)
    as (st & Hr & Hw & Hs & He & Hl & Hlen).
  pose proof (reaches_count _ _ _ _ Hr) as Hsum.
  destruct (fetch_all_schemas_unfold env sched mw errs query o cl Hcl Hmk Hmw) as [Ht H1].
  rewrite Ht in Hw, Hs, He, Hl, Hkeys. cbn [writer success_count error_count errors] in *.
  assert (Hcc : ∀ r, group_row_counts (close_all r) = group_row_counts r) by done.
  rewrite Hcc in Hkeys. rewrite H1. unfold log_group_counts. rewrite Hkeys.
  eexists. split; [done|]. simpl.
  pose proof (succeeded_plus_failed (run_futures env sched query cl)) as Hsf.
  rewrite length_run_futures in Hsf.
  split; [done|]. split; [done|]. split; [lia|]. split; [done|].
  rewrite <- (Hcc (writer _)), Hw, Hcc, Hsum. done.
Qed.

(** ** Runs on which the specification and the code part *)

(** C2 (the code at the failing input). One source, which does not fail,
    returns a row with year 2022 and a row with a null year, and the run
    groups by year. The loop tallies one success and no failure and both
    files are written and closed, but the run raises [TypeError] from the
    sort of the group keys before the summary is built. With a source
    whose second row names a file in a missing directory, the summary
    counts the one source both as successful and as failed. *)
Theorem run_raises_on_mixed_group_keys :
  let run := fetch_all_schemas (Scenario.world ["nulls"] Scenario.any_path)
               Scenario.in_order 10 [] Scenario.query Scenario.by_year in
  let run' := fetch_all_schemas (Scenario.world ["slash"] Scenario.flat_dir)
                Scenario.in_order 10 [] Scenario.query Scenario.by_year in
  sources_failed
    (run_futures (Scenario.world ["nulls"] Scenario.any_path) Scenario.in_order
       Scenario.query [Scenario.source "nulls"]) = 0
  ∧ run.1 = inl (Exn TypeError "'<' not supported between instances")
  ∧ success_count run.2 = 1 ∧ error_count run.2 = 0
  ∧ map_to_list (group_row_counts (writer run.2)) = [(VInt 2022, 1); (VNone, 1)]
  ∧ f_path <$> files (writer run.2) = ["./y_2022.csv"; "./y_None.csv"]
  ∧ run'.1 = inr (RunSummary 1 1 1 1500000 1
                    [Error "slash" "[Errno 2] No such file or directory: './y_a/b.csv'"]).
Proof. vm_compute. repeat split. Qed.

(** C3 (counterexample). The source returns three rows; the file of the
    second one cannot be opened, so one row is written and reported while
    the source counts as successful with three rows. *)
Lemma total_rows_not_rows_returned :
  ¬ total_rows_as_claimed (Scenario.world ["slash"] Scenario.flat_dir)
      Scenario.in_order 10 [] Scenario.query Scenario.by_year.
Proof.
  intros H.
  specialize (H [Scenario.source "slash"]
                (RunSummary 1 1 1 1500000 1
                   [Error "slash" "[Errno 2] No such file or directory: './y_a/b.csv'"])
                (fetch_all_schemas (Scenario.world ["slash"] Scenario.flat_dir)
                   Scenario.in_order 10 [] Scenario.query Scenario.by_year).2
                eq_refl).
  assert (Hrun : fetch_all_schemas (Scenario.world ["slash"] Scenario.flat_dir)
                   Scenario.in_order 10 [] Scenario.query Scenario.by_year
                 = (inr (RunSummary 1 1 1 1500000 1
                      [Error "slash" "[Errno 2] No such file or directory: './y_a/b.csv'"]),
                    (fetch_all_schemas (Scenario.world ["slash"] Scenario.flat_dir)
                       Scenario.in_order 10 [] Scenario.query Scenario.by_year).2)).
  { apply injective_projections; [vm_compute; reflexivity|reflexivity]. }
  specialize (H Hrun). vm_compute in H. discriminate H.
Qed.


(** C7 (counterexample). Without grouping column and without override the
    file is named ['schema_results.csv'], a name the caller never gave. *)
Lemma default_file_name_not_from_caller :
  filename_of Scenario.ungrouped (group_value_of Scenario.ungrouped ∅)
    = "schema_results.csv"
  ∧ single_file_name Scenario.ungrouped = None
  ∧ ¬ key_and_name_as_claimed Scenario.ungrouped ∅.
Proof.
  split; [reflexivity|]. split; [reflexivity|].
  unfold key_and_name_as_claimed. simpl. intros [_ H]. discriminate H.
Qed.

(** ** The theorems at concrete runs *)

Lemma header_fixed_by_first_row_witness :
  reaches Scenario.any_path Scenario.by_year [("a", Scenario.row_2021)]
    Scenario.after_first
  ∧ group_fieldnames Scenario.after_first !! VInt 2021 = Some ["schema"; "n"; "y"].
Proof.
  assert (Hr : reaches Scenario.any_path Scenario.by_year [("a", Scenario.row_2021)]
                 Scenario.after_first).
  { refine (steps_ok _ _ _ [] _ _ _ _ (steps_refl _ _ _) _). vm_compute. reflexivity. }
  split; [exact Hr|].
  destruct (header_fixed_by_first_row Scenario.any_path Scenario.by_year
              [("a", Scenario.row_2021)] Scenario.after_first (VInt 2021) Hr)
    as [H _].
  rewrite H. vm_compute. reflexivity.
Defined.

Lemma row_written_against_header_witness :
  reaches Scenario.any_path Scenario.by_year [("a", Scenario.row_2021)]
    Scenario.after_first
  ∧ ∃ st', write_row Scenario.any_path Scenario.by_year "b"
             Scenario.row_own_schema Scenario.after_first = (inr tt, st').
Proof.
  assert (Hr : reaches Scenario.any_path Scenario.by_year [("a", Scenario.row_2021)]
                 Scenario.after_first).
  { refine (steps_ok _ _ _ [] _ _ _ _ (steps_refl _ _ _) _). vm_compute. reflexivity. }
  split; [exact Hr|].
  apply (proj1 (row_written_against_header Scenario.any_path Scenario.by_year
                  [("a", Scenario.row_2021)] Scenario.after_first "b"
                  Scenario.row_own_schema Hr) ["schema"; "n"; "y"]).
  vm_compute. reflexivity.
Defined.


Lemma schema_column_overrides_source_witness :
  reaches Scenario.any_path Scenario.by_year [] empty_registry
  ∧ Scenario.row_own_schema !! "schema" = Some (VStr "elsewhere")
  ∧ make_row "a" Scenario.row_own_schema !! "schema" = Some (VStr "elsewhere").
Proof.
  assert (Hr : reaches Scenario.any_path Scenario.by_year [] empty_registry)
    by apply steps_refl.
  assert (Hv : Scenario.row_own_schema !! "schema" = Some (VStr "elsewhere"))
    by (vm_compute; reflexivity).
  split; [exact Hr|]. split; [exact Hv|].
  refine (proj1 (schema_column_overrides_source Scenario.any_path Scenario.by_year
                   [] empty_registry "a" Scenario.row_own_schema (VStr "elsewhere")
                   (write_row Scenario.any_path Scenario.by_year "a"
                      Scenario.row_own_schema empty_registry).2 Hr Hv _)).
  vm_compute. reflexivity.
Defined.

Lemma group_key_and_file_name_witness :
  reaches Scenario.any_path Scenario.ungrouped [] empty_registry
  ∧ ∃ h f,
      files (write_row Scenario.any_path Scenario.ungrouped "a" Scenario.row_2021
               empty_registry).2 !! h = Some f
      ∧ f_path f = "./schema_results.csv".
Proof.
  assert (Hr : reaches Scenario.any_path Scenario.ungrouped [] empty_registry)
    by apply steps_refl.
  split; [exact Hr|].
  assert (Hw : write_row Scenario.any_path Scenario.ungrouped "a" Scenario.row_2021
                 empty_registry
               = (inr tt, (write_row Scenario.any_path Scenario.ungrouped "a"
                             Scenario.row_2021 empty_registry).2))
    by (vm_compute; reflexivity).
  destruct (group_key_and_file_name Scenario.any_path Scenario.ungrouped [] empty_registry
              "a" Scenario.row_2021 _ Hr Hw)
    as (key & fname & h & f & fn & _ & Hf & Hp & _ & _ & _ & _ & Hdef).
  destruct (Hdef eq_refl eq_refl) as [_ ->].
  exists h, f. split; [exact Hf|exact Hp].
Defined.

Lemma total_rows_written_is_rows_returned_witness :
  get_schema_credentials (Scenario.world ["a"; "b"; "zz"; "c"] Scenario.any_path)
    = inr (Scenario.source <$> ["a"; "b"; "zz"; "c"])
  ∧ (∀ l, as_completed Scenario.reversed l ≡ₚ l)
  ∧ (∀ p, open_error (Scenario.world ["a"; "b"; "zz"; "c"] Scenario.any_path) p = None)
  ∧ sum_values
      (group_row_counts
         (writer (fetch_all_schemas
                    (Scenario.world ["a"; "b"; "zz"; "c"] Scenario.any_path)
                    Scenario.reversed 10 [] Scenario.query Scenario.by_year).2))
    = rows_returned
        (completed (Scenario.world ["a"; "b"; "zz"; "c"] Scenario.any_path)
           Scenario.reversed 10 Scenario.query Scenario.by_year).
Proof.
  assert (Hperm : ∀ l : list future, as_completed Scenario.reversed l ≡ₚ l)
    by (intros l; apply reverse_Permutation).
  assert (Hok : ∀ p, open_error (Scenario.world ["a"; "b"; "zz"; "c"] Scenario.any_path) p
                     = None) by (intros p; reflexivity).
  split; [reflexivity|]. split; [exact Hperm|]. split; [exact Hok|].
  exact (proj1 (total_rows_written_is_rows_returned
                  (Scenario.world ["a"; "b"; "zz"; "c"] Scenario.any_path)
                  Scenario.reversed 10 [] Scenario.query Scenario.by_year
                  (Scenario.source <$> ["a"; "b"; "zz"; "c"]) eq_refl Hperm Hok)).
Defined.


(** The scenario of the specification: three sources and a fourth that
    refuses the login, grouped by year. *)
Example three_sources_and_a_failure :
  (fetch_all_schemas (Scenario.world ["a"; "b"; "zz"; "c"] Scenario.any_path)
     Scenario.reversed 10 [] Scenario.query Scenario.by_year).1
  = inr (RunSummary 4 3 1 1500000 3
           [Error "zz" "Connection timeout after 15s: (1045, 'Access denied')"]).
Proof. vm_compute. reflexivity. Qed.

(** * Further properties of the code *)

(** ** The replay path *)

Lemma for_each_app {S A} (l1 l2 : list A) (body : A → M S unit) st :
  for_each (l1 ++ l2) body st
  = match for_each l1 body st with
    | (inr _, st') => for_each l2 body st'
    | (inl e, st') => (inl e, st')
    end.
Proof.
  revert st. induction l1 as [|x l1 IH]; intros st; [done|].
  simpl. unfold bind. destruct (body x st) as [[e|[]] st1]; [done|]. apply IH.
Qed.

Lemma lookup_summary_dict_results s : summary_dict s !! "results" = None.
Proof. unfold summary_dict. by rewrite !lookup_insert_ne. Qed.

(** X1. [save_results] reads the key ['results'], which no summary
    built by [fetch_all_schemas] has: handed such a summary it returns at
    once, creating no directory and opening no file, whatever the run
    was. *)
Theorem save_results_ignores_run_summary env s o :
  save_results env (summary_dict s) o = (inr tt, empty_registry).
Proof.
  unfold save_results, save_results_body, try_except, dict_get.
  by rewrite lookup_summary_dict_results.
Qed.

Section Replay.
Variable open_error : string → option exn.
Variable o : options.

(** The two nested loops of lines 394-439: the rows are written in the
    order of the results up to the first one whose group cannot be
    opened, which ends both loops. *)
Lemma save_loop rs tr st :
  reaches open_error o tr st →
  ∃ k st' res,
    for_each rs (λ result,
      if has_rows result
      then for_each (default [] (sr_data result))
                    (write_row open_error o (default "" (sr_schema result)))
      else ret tt) st = (res, st')
    ∧ reaches open_error o (tr ++ take k (saved_calls rs)) st'
    ∧ match res with
      | inr _ => k = length (saved_calls rs)
      | inl e => ∃ c, saved_calls rs !! k = Some c
                      ∧ open_error (path_of o (call_group o c)) = Some e
      end.
Proof.
  revert tr st. induction rs as [|r rs IH]; intros tr st Hr.
  - exists 0, st, (inr tt). simpl. by rewrite app_nil_r.
  - unfold saved_calls. rewrite bind_cons. fold (saved_calls rs).
    simpl. unfold bind at 1. destruct (has_rows r).
    + destruct (for_each_write_row open_error o (default "" (sr_schema r))
                  (default [] (sr_data r)) tr st Hr)
        as (n & st1 & res1 & Hfe & Hr1 & Hres1).
      rewrite Hfe. destruct res1 as [e|[]].
      * destruct Hres1 as (row & Hrow & He).
        exists n, st1, (inl e). split; [done|].
        assert (Hlt : n < length (default [] (sr_data r)))
          by (by eapply lookup_lt_Some).
        split.
        { rewrite take_app_le by (rewrite length_fmap; lia).
          by rewrite <- fmap_take. }
        exists (default "" (sr_schema r), row). split; [|done].
        rewrite lookup_app_l by (rewrite length_fmap; lia).
        by rewrite list_lookup_fmap, Hrow.
      * subst n. rewrite firstn_all in Hr1.
        destruct (IH _ _ Hr1) as (k & st' & res & Hfe' & Hr' & Hres).
        exists (length (default [] (sr_data r)) + k), st', res.
        split; [done|].
        assert (Hlen : length (pair (default "" (sr_schema r)) <$> default [] (sr_data r))
                       = length (default [] (sr_data r))) by apply length_fmap.
        split.
        { rewrite <- Hlen, take_app_add. by rewrite app_assoc. }
        destruct res as [e|[]].
        -- destruct Hres as (c & Hc & He). exists c. split; [|done].
           rewrite <- Hlen. rewrite lookup_app_r by apply Nat.le_add_r.
           by rewrite Nat.add_comm, Nat.add_sub.
        -- rewrite length_app, Hlen. f_equal. exact Hres.
    + destruct (IH _ _ Hr) as (k & st' & res & Hfe' & Hr' & Hres).
      exists k, st', res. simpl. done.
Qed.

(** A trace determines the registry: replaying the rows written gives
    the state back. *)
Lemma steps_replay st0 tr0 tr st :
  reg_inv o tr0 st0 →
  steps open_error o st0 tr st →
  for_each tr (λ c, write_row open_error o c.1 c.2) st0 = (inr tt, st).
Proof.
  intros Hinv. induction 1 as [|st0 tr st1 s r st2 Hs IH Hw|st0 tr st1 s r e st2 Hs IH Hw].
  - done.
  - rewrite for_each_app, IH by done. simpl. unfold bind. by rewrite Hw.
  - destruct (write_row_inv open_error o (tr0 ++ tr) st1 s r)
      as [(st' & Hw' & _)|(e' & Hw' & _)].
    { by eapply steps_inv. }
    + congruence.
    + rewrite Hw in Hw'. simplify_eq. by apply IH.
Qed.

Lemma reaches_functional tr st1 st2 :
  reaches open_error o tr st1 → reaches open_error o tr st2 → st1 = st2.
Proof.
  intros H1 H2.
  apply (steps_replay _ [] _ _ (reg_inv_empty o)) in H1.
  apply (steps_replay _ [] _ _ (reg_inv_empty o)) in H2. congruence.
Qed.

Lemma close_all_closes tr st h f :
  reaches open_error o tr st →
  files (close_all st) !! h = Some f →
  f_closed f = true ∧ ∃ f0, files st !! h = Some f0 ∧ f_path f = f_path f0
                            ∧ f_lines f = f_lines f0.
Proof.
  intros Hr Hf.
  destruct (close_all_spec o tr st (reaches_inv _ _ _ _ Hr)) as (_ & _ & _ & Hlen & Hcl).
  assert (Hlt : h < length (files st)).
  { rewrite <- Hlen. by eapply lookup_lt_Some. }
  destruct (lookup_lt_is_Some_2 _ _ Hlt) as [f0 Hf0].
  rewrite (Hcl h f0 Hf0) in Hf. simplify_eq. simpl. eauto.
Qed.

End Replay.

Section ReplayRun.
Variable env : environment.
Variable o : options.

(** [save_results] on an empty list of results: the early return. *)
Lemma save_results_nil summary :
  summary !! "results" = Some (PList []) →
  save_results env summary o = (inr tt, empty_registry).
Proof.
  intros Hs. unfold save_results, save_results_body, try_except, dict_get.
  by rewrite Hs.
Qed.

(** On a list that is not empty, when the output directory cannot be
    created: the handler swallows the exception and nothing is written. *)
Lemma save_results_no_dir summary rs e :
  summary !! "results" = Some (PList rs) →
  rs ≠ [] →
  os_makedirs env (output_dir o) = Some e →
  save_results env summary o = (inr tt, empty_registry).
Proof.
  intros Hs Hne Hmk. unfold save_results, save_results_body, try_except, dict_get.
  rewrite Hs. simpl. rewrite bool_decide_false by done.
  change (negb (negb false)) with false. cbv iota.
  unfold bind at 1. by rewrite Hmk.
Qed.

(** When the output directory can be created: the loops, then the files
    are closed unless a row raised; the handler turns every exception
    into a normal return. *)
Lemma save_results_unfold summary rs :
  summary !! "results" = Some (PList rs) →
  os_makedirs env (output_dir o) = None →
  save_results env summary o
  = (inr tt,
     match for_each rs (λ result,
             if has_rows result
             then for_each (default [] (sr_data result))
                    (write_row (open_error env) o (default "" (sr_schema result)))
             else ret tt) empty_registry with
     | (inr _, st) => close_all st
     | (inl _, st) => st
     end).
Proof.
  intros Hs Hmk. destruct (decide (rs = [])) as [->|Hne].
  - rewrite (save_results_nil summary Hs). simpl. by rewrite close_all_empty.
  - unfold save_results, save_results_body, try_except, dict_get.
    rewrite Hs. simpl. rewrite bool_decide_false by done.
    change (negb (negb false)) with false. cbv iota.
    unfold bind at 1. rewrite Hmk. simpl. unfold bind at 1.
    destruct (for_each rs _ empty_registry) as [[e|[]] st]; [done|].
    unfold bind, modify, gets, lift.
    by destruct (log_group_counts (group_row_counts (close_all st))) as [e|[]].
Qed.

Lemma save_results_body_list summary rs :
  summary !! "results" = Some (PList rs) →
  os_makedirs env (output_dir o) = None →
  ∃ k st,
    reaches (open_error env) o (take k (saved_calls rs)) st
    ∧ ((k = length (saved_calls rs)
        ∧ (save_results env summary o).2 = close_all st)
       ∨ ((∃ c e, saved_calls rs !! k = Some c
                  ∧ open_error env (path_of o (call_group o c)) = Some e)
          ∧ (save_results env summary o).2 = st))
    ∧ (save_results env summary o).1 = inr tt.
Proof.
  intros Hs Hmk. rewrite (save_results_unfold summary rs Hs Hmk).
  destruct (save_loop (open_error env) o rs [] empty_registry (steps_refl _ _ _))
    as (k & st & res & Hfe & Hr & Hres).
  simpl in Hr. exists k, st. split; [done|]. rewrite Hfe. simpl.
  split; [|done]. destruct res as [e|[]].
  - right. split; [|done]. destruct Hres as (c & ? & ?). eauto.
  - left. done.
Qed.
End ReplayRun.

(** X3. [save_results] never raises. On a list of results that is not
    empty, when the output directory cannot be created, nothing is
    written. Otherwise its rows are written in order, as [write_row]
    would write them, up to the first row whose group's file cannot be
    opened: when there is none, all rows are written and every file is
    closed; otherwise the call returns normally all the same, the
    failing row and all rows after it (of this and of the following
    results) are not written, and no file opened so far is closed. *)
Theorem save_results_open_failure env o summary rs :
  summary !! "results" = Some (PList rs) →
  (save_results env summary o).1 = inr tt
  ∧ (rs ≠ [] → is_Some (os_makedirs env (output_dir o)) →
     (save_results env summary o).2 = empty_registry)
  ∧ (rs = [] ∨ os_makedirs env (output_dir o) = None →
     ∃ k st,
       reaches (open_error env) o (take k (saved_calls rs)) st
       ∧ ((k = length (saved_calls rs)
           ∧ (save_results env summary o).2 = close_all st
           ∧ ∀ h f, files (save_results env summary o).2 !! h = Some f →
               f_closed f = true)
          ∨ ((∃ c e, saved_calls rs !! k = Some c
                     ∧ open_error env (path_of o (call_group o c)) = Some e)
             ∧ (save_results env summary o).2 = st
             ∧ ∀ h f, files (save_results env summary o).2 !! h = Some f →
                 f_closed f = false))).
Proof.
  intros Hs. split; [|split].
  - destruct rs as [|r rs]; [by rewrite (save_results_nil env o summary Hs)|].
    destruct (os_makedirs env (output_dir o)) as [e|] eqn:Hmk.
    + by rewrite (save_results_no_dir env o summary (r :: rs) e Hs).
    + by destruct (save_results_body_list env o summary (r :: rs) Hs Hmk)
        as (_ & _ & _ & _ & ?).
  - intros Hne [e Hmk]. by rewrite (save_results_no_dir env o summary rs e Hs Hne Hmk).
  - intros [->|Hmk].
    + rewrite (save_results_nil env o summary Hs). exists 0, empty_registry.
      split; [apply steps_refl|]. left. split; [done|].
      split; [by rewrite close_all_empty|]. intros h f Hf. done.
    + destruct (save_results_body_list env o summary rs Hs Hmk)
        as (k & st & Hr & Hcase & Hres).
      exists k, st. split; [done|].
      destruct Hcase as [[Hk Hst]|[Hc Hst]].
      * left. split; [done|]. split; [done|]. intros h f Hf. rewrite Hst in Hf.
        by destruct (close_all_closes (open_error env) o _ _ _ _ Hr Hf).
      * right. split; [done|]. split; [done|]. intros h f Hf. rewrite Hst in Hf.
        by eapply reaches_files_open.
Qed.

Lemma saved_calls_results_in_order futs :
  (∀ fut, fut ∈ futs →
     ∃ res, fut_outcome fut = inr res ∧ result_schema res = fut_schema fut) →
  saved_calls (results_in_order futs) = futs ≫= future_calls.
Proof.
  induction futs as [|fut futs IH]; intros H; [done|].
  destruct (H fut) as (res & Ho & Hs); [apply elem_of_cons; by left|].
  assert (Hc : results_in_order (fut :: futs) = result_dict res :: results_in_order futs).
  { unfold results_in_order. simpl. by rewrite Ho. }
  rewrite Hc. unfold saved_calls at 1. rewrite !bind_cons.
  fold (saved_calls (results_in_order futs)).
  rewrite IH by (intros f Hf; apply H, elem_of_cons; by right).
  f_equal. unfold future_calls. rewrite Ho.
  destruct res as [nm n data|nm msg]; simpl in *; [|done].
  unfold has_rows. simpl. rewrite ?bool_decide_true by eauto. simpl. by subst.
Qed.

(** X2. Replay agrees with streaming: when every file opens, handing
    [save_results] the result dictionaries of a run, in the order in
    which the run received them (none when the run raised before its
    loop), leaves the same files with the same content, all closed, and
    the same per-group headers and counts as the run itself left. *)
Theorem save_results_replays_run env sched mw errs query o summary :
  (∀ l, as_completed sched l ≡ₚ l) →
  (∀ p, open_error env p = None) →
  summary !! "results"
    = Some (PList (results_in_order (completed env sched mw query o))) →
  save_results env summary o
  = (inr tt, writer (fetch_all_schemas env sched mw errs query o).2).
Proof.
  intros Hperm Hok Hs.
  destruct (fetch_all_schemas_setup env sched mw errs query o)
    as [(cl & Hcl & Hmk & Hmw & Hcompl)|(e & -> & Hcompl)].
  2:{ rewrite Hcompl in Hs. by rewrite (save_results_nil env o summary Hs). }
  rewrite Hcompl in Hs.
  destruct (fetch_all_schemas_unfold env sched mw errs query o cl Hcl Hmk Hmw) as [-> _].
  set (futs := as_completed sched (run_futures env sched query cl)) in *.
  destruct (loop_ok (open_error env) o futs (Tally 0 0 errs empty_registry) [] Hok)
    as (Hr & _).
  { apply steps_refl. }
  simpl in Hr. cbn [writer].
  destruct (save_results_body_list env o summary _ Hs Hmk)
    as (k & st & Hr' & Hcase & Hres).
  destruct (save_results env summary o) as [res st'] eqn:Hsr.
  simpl in *. subst res. f_equal.
  destruct Hcase as [[Hk ->]|[(c & e & _ & He) _]]; [|by rewrite Hok in He].
  subst k. rewrite firstn_all in Hr'.
  assert (Hperm_in : ∀ fut, fut ∈ futs →
            ∃ res, fut_outcome fut = inr res ∧ result_schema res = fut_schema fut).
  { intros fut Hin. unfold futs in Hin. rewrite Hperm in Hin.
    by apply run_futures_spec in Hin as [? _]. }
  rewrite (saved_calls_results_in_order futs Hperm_in) in Hr'.
  f_equal. by eapply reaches_functional.
Qed.


(** ** Runs with a single group *)

Section SingleGroup.
Variable open_error : string → option exn.
Variable o : options.

Lemma written_to_elem g tr c :
  c ∈ written_to o g tr → c ∈ tr ∧ call_group o c = g.
Proof. unfold written_to. intros H. by apply list_elem_of_filter in H as [? ?]. Qed.

(** A group that the registry knows has a row in the trace. *)
Lemma known_group_written tr st g h :
  reaches open_error o tr st →
  open_files st !! g = Some h →
  ∃ c0 cs, written_to o g tr = c0 :: cs
    ∧ files st !! h
      = Some (File (path_of o g)
                (header_line (fieldnames_of (call_row c0))
                   :: (record_of (fieldnames_of (call_row c0)) <$> c0 :: cs))
                false).
Proof.
  intros Hr Hg. pose proof (inv_groups _ _ _ (reaches_inv _ _ _ _ Hr) g) as Hgr.
  destruct (written_to o g tr) as [|c0 cs]; simpl in Hgr.
  - destruct Hgr as (_ & _ & _ & Hn). congruence.
  - destruct Hgr as (h' & _ & _ & _ & Hof & Hf). simplify_eq. eauto.
Qed.

Lemma known_count_written tr st g n :
  reaches open_error o tr st →
  group_row_counts st !! g = Some n →
  ∃ c, c ∈ tr ∧ call_group o c = g.
Proof.
  intros Hr Hg. pose proof (inv_groups _ _ _ (reaches_inv _ _ _ _ Hr) g) as Hgr.
  destruct (written_to o g tr) as [|c0 cs] eqn:Hw; simpl in Hgr.
  - destruct Hgr as (_ & _ & Hn & _). congruence.
  - exists c0. apply (written_to_elem g). rewrite Hw. apply elem_of_cons. by left.
Qed.

(** When all the rows written belong to one group, there is at most one
    file, at the path of that group, and no other key. *)
Lemma single_group tr st g0 :
  reaches open_error o tr st →
  (∀ c, c ∈ tr → call_group o c = g0) →
  (length (files st) ≤ 1)%nat
  ∧ (∀ h f, files st !! h = Some f → f_path f = path_of o g0)
  ∧ (∀ g n, group_row_counts st !! g = Some n → g = g0).
Proof.
  intros Hr Hall.
  assert (Hkey : ∀ g h, open_files st !! g = Some h → g = g0).
  { intros g h Hg.
    destruct (known_group_written tr st g h Hr Hg) as (c0 & cs & Hw & _).
    destruct (written_to_elem g tr c0) as [Hin Hc].
    { rewrite Hw. apply elem_of_cons. by left. }
    rewrite <- Hc. by apply Hall. }
  pose proof (reaches_inv _ _ _ _ Hr) as Hinv.
  split; [|split].
  - destruct (files st) as [|f0 [|f1 fs]] eqn:Hfs; simpl; [lia|lia|].
    destruct (inv_handles _ _ _ Hinv 0) as [g Hg]; [rewrite Hfs; simpl; lia|].
    destruct (inv_handles _ _ _ Hinv 1) as [g' Hg']; [rewrite Hfs; simpl; lia|].
    pose proof (Hkey _ _ Hg). pose proof (Hkey _ _ Hg'). congruence.
  - intros h f Hf.
    destruct (inv_handles _ _ _ Hinv h) as [g Hg]; [by eapply lookup_lt_Some|].
    pose proof (Hkey _ _ Hg) as ->.
    destruct (known_group_written tr st g0 h Hr Hg) as (c0 & cs & _ & Hf').
    rewrite Hf in Hf'. by simplify_eq.
  - intros g n Hg. destruct (known_count_written tr st g n Hr Hg) as (c & Hin & <-).
    by apply Hall.
Qed.

(** The rows that the completion loop writes are rows that the sources
    returned. *)
Lemma process_future_sub t fut tr :
  reaches open_error o tr (writer t) →
  ∃ tr',
    reaches open_error o (tr ++ tr') (writer (process_future open_error o t fut))
    ∧ tr' ⊆ future_calls fut
    ∧ (error_count t + (if future_success fut then 0 else 1)
      ≤ error_count (process_future open_error o t fut))%nat.
Proof.
  intros Hr. unfold process_future, future_success, future_calls.
  destruct (fut_outcome fut) as [e|[nm n data|nm msg]]; simpl.
  - exists []. rewrite app_nil_r. split; [done|]. split; [done|lia].
  - destruct (for_each_write_row open_error o (fut_schema fut) data tr (writer t) Hr)
      as (k & st' & res & Hfe & Hr' & _).
    rewrite Hfe. exists (pair (fut_schema fut) <$> take k data).
    assert (Hsub : (pair (fut_schema fut) <$> take k data)
                   ⊆ (pair (fut_schema fut) <$> data)).
    { intros c Hc. apply list_elem_of_fmap in Hc as (r & -> & Hin).
      apply list_elem_of_fmap. exists r. split; [done|].
      apply elem_of_take in Hin as (i & Hi & _). apply list_elem_of_lookup. eauto. }
    destruct res; simpl; (split; [done|]); (split; [done|]); lia.
  - exists []. rewrite app_nil_r. split; [done|]. split; [done|lia].
Qed.

Lemma loop_sub futs t tr :
  reaches open_error o tr (writer t) →
  ∃ tr',
    reaches open_error o (tr ++ tr')
      (writer (foldl (process_future open_error o) t futs))
    ∧ tr' ⊆ (futs ≫= future_calls)
    ∧ (error_count t + sources_failed futs
      ≤ error_count (foldl (process_future open_error o) t futs))%nat.
Proof.
  revert t tr. induction futs as [|fut futs IH]; intros t tr Hr.
  - exists []. rewrite app_nil_r. split; [done|]. split; [done|].
    unfold sources_failed. simpl. lia.
  - rewrite bind_cons. cbn [foldl].
    destruct (process_future_sub t fut tr Hr) as (tr1 & Hr1 & Hs1 & He1).
    destruct (IH _ _ Hr1) as (tr2 & Hr2 & Hs2 & He2).
    exists (tr1 ++ tr2). rewrite app_assoc. split; [done|]. split.
    + intros c Hc. apply elem_of_app in Hc as [Hc|Hc];
        apply elem_of_app; [left; by apply Hs1|right; by apply Hs2].
    + unfold sources_failed in *. rewrite filter_cons.
      destruct (future_success fut); simpl in *; lia.
Qed.
End SingleGroup.

(** A run that got its list of sources raises before its loop, with no
    file opened, when the output directory cannot be created or the pool
    size is not positive. *)
Lemma fetch_all_schemas_raises env sched mw errs query o cl :
  get_schema_credentials env = inr cl →
  is_Some (os_makedirs env (output_dir o)) ∨ (mw ≤ 0)%Z →
  ∃ e, fetch_all_schemas env sched mw errs query o
       = (inl e, Tally 0 0 errs empty_registry).
Proof.
  intros Hcl Hor. unfold fetch_all_schemas. rewrite Hcl.
  destruct (os_makedirs env (output_dir o)) as [e|]; [eauto|].
  destruct Hor as [[e He]|Hmw]; [done|].
  destruct (thread_pool mw) as [e|] eqn:Hp; [eauto|].
  apply thread_pool_positive in Hp. lia.
Qed.

(** What a run leaves when all the rows it wrote belong to one group. *)
Lemma single_group_run env sched mw errs query o cl g0 :
  get_schema_credentials env = inr cl →
  (∀ c, c ∈ (as_completed sched (run_futures env sched query cl) ≫= future_calls) →
     call_group o c = g0) →
  (os_makedirs env (output_dir o) = None → (0 < mw)%Z →
   ∃ s, (fetch_all_schemas env sched mw errs query o).1 = inr s)
  ∧ (is_Some (os_makedirs env (output_dir o)) ∨ (mw ≤ 0)%Z →
     ∃ e, (fetch_all_schemas env sched mw errs query o).1 = inl e
          ∧ files (writer (fetch_all_schemas env sched mw errs query o).2) = [])
  ∧ (length (files (writer (fetch_all_schemas env sched mw errs query o).2)) ≤ 1)%nat
  ∧ ∀ h f, files (writer (fetch_all_schemas env sched mw errs query o).2) !! h = Some f →
      f_path f = path_of o g0 ∧ f_closed f = true.
Proof.
  intros Hcl Hall.
  assert (Hraise : is_Some (os_makedirs env (output_dir o)) ∨ (mw ≤ 0)%Z →
     ∃ e, (fetch_all_schemas env sched mw errs query o).1 = inl e
          ∧ files (writer (fetch_all_schemas env sched mw errs query o).2) = []).
  { intros Hor.
    destruct (fetch_all_schemas_raises env sched mw errs query o cl Hcl Hor) as [e ->].
    by exists e. }
  destruct (os_makedirs env (output_dir o)) as [e|] eqn:Hmk.
  { destruct Hraise as (e' & He' & Hnil); [left; eauto|].
    split; [done|]. split; [eauto|]. rewrite Hnil. split; [simpl; lia|]. done. }
  destruct (Z.lt_ge_cases 0 mw) as [Hmw|Hmw].
  2:{ destruct Hraise as (e' & He' & Hnil); [right; lia|].
      split; [intros _ ?; lia|]. split; [eauto|].
      rewrite Hnil. split; [simpl; lia|]. done. }
  split; [intros _ _|split; [intros [[e He]|?]; [done|lia]|]].
  all: destruct (fetch_all_schemas_unfold env sched mw errs query o cl Hcl Hmk Hmw)
         as [Ht H1];
       set (futs := as_completed sched (run_futures env sched query cl)) in *;
       destruct (loop_sub (open_error env) o futs (Tally 0 0 errs empty_registry) [])
         as (tr & Hr & Hsub & _); [apply steps_refl|];
       simpl in Hr;
       destruct (single_group (open_error env) o tr _ g0 Hr) as (Hlen & Hpath & Hkeys);
         [intros c Hc; by apply Hall, Hsub|];
       destruct (close_all_spec o tr _ (reaches_inv _ _ _ _ Hr)) as (_ & _ & _ & Hl & _);
       rewrite ?Ht, ?H1; cbn [writer].
  - unfold log_group_counts.
    assert (Hsame : same_type_keys
              (map_to_list (group_row_counts
                 (writer (foldl (process_future (open_error env) o)
                            (Tally 0 0 errs empty_registry) futs)))).*1 = true).
    { assert (Hk : ∀ g, g ∈ (map_to_list (group_row_counts
                 (writer (foldl (process_future (open_error env) o)
                            (Tally 0 0 errs empty_registry) futs)))).*1 → g = g0).
      { intros g Hg. apply list_elem_of_fmap in Hg as ([g' n] & -> & Hin).
        apply elem_of_map_to_list in Hin. by eapply Hkeys. }
      revert Hk. generalize ((map_to_list (group_row_counts
                 (writer (foldl (process_future (open_error env) o)
                            (Tally 0 0 errs empty_registry) futs)))).*1).
      intros l Hk. destruct l as [|v l]; [done|]. simpl.
      apply forallb_forall. intros w Hw. apply bool_decide_eq_true.
      rewrite (Hk v) by (apply elem_of_cons; by left).
      rewrite (Hk w); [done|]. apply elem_of_cons. right.
      by apply list_elem_of_In. }
    rewrite Hsame. eauto.
  - split; [lia|]. intros h f Hf.
    destruct (close_all_closes (open_error env) o _ _ _ _ Hr Hf)
      as (Hc & f0 & Hf0 & Hp & _).
    split; [|done]. rewrite Hp. by eapply Hpath.
Qed.

(** X4. With grouping off (a single file name is given, or no grouping
    column is) a run that obtained its list of sources leaves at most one
    file, closed, at the single file name or at ['schema_results.csv']
    inside the output directory, whatever the sources return and in
    whatever order they complete. It returns a summary when the output
    directory can be created and the pool size is positive, and otherwise
    raises without having opened a file. *)
Theorem ungrouped_run_single_file env sched mw errs query o cl :
  get_schema_credentials env = inr cl →
  truthy (single_file_name o) || negb (truthy (group_column o)) = true →
  (os_makedirs env (output_dir o) = None → (0 < mw)%Z →
   ∃ s, (fetch_all_schemas env sched mw errs query o).1 = inr s)
  ∧ (is_Some (os_makedirs env (output_dir o)) ∨ (mw ≤ 0)%Z →
     ∃ e, (fetch_all_schemas env sched mw errs query o).1 = inl e
          ∧ files (writer (fetch_all_schemas env sched mw errs query o).2) = [])
  ∧ (length (files (writer (fetch_all_schemas env sched mw errs query o).2)) ≤ 1)%nat
  ∧ ∀ h f, files (writer (fetch_all_schemas env sched mw errs query o).2) !! h = Some f →
      f_path f
      = os_path_join (output_dir o)
          (if truthy (single_file_name o) then the (single_file_name o)
           else "schema_results.csv")
      ∧ f_closed f = true.
Proof.
  intros Hcl Hoff.
  assert (Hg : ∀ r, group_value_of o r = VStr "all").
  { intros r. unfold group_value_of.
    destruct (truthy (single_file_name o)); [done|].
    by destruct (truthy (group_column o)). }
  destruct (single_group_run env sched mw errs query o cl (VStr "all") Hcl)
    as (Hs & Hraise & Hlen & Hf).
  { intros c _. apply Hg. }
  split; [done|]. split; [done|]. split; [done|]. intros h f Hhf.
  destruct (Hf h f Hhf) as [-> ?]. split; [|done].
  unfold path_of, filename_of.
  destruct (truthy (single_file_name o)); [done|].
  by destruct (truthy (group_column o)).
Qed.

(** X5. The command line: with [--complex] and no [--group-column], and
    also with an empty [--group-column], the program writes at most one
    file ([complex.csv], respectively [schema_results.csv], in the output
    directory), whatever [--query] is. Once the list of sources is
    obtained the run returns its summary when the output directory can
    be created and [--workers] is positive; otherwise it raises without
    having opened a file. *)
Theorem main_single_file env sched a cl :
  get_schema_credentials env = inr cl →
  (arg_group_column a = None ∧ arg_complex a = true) ∨ arg_group_column a = Some "" →
  (os_makedirs env (arg_output_dir a) = None → (0 < arg_workers a)%Z →
   ∃ s, (main_run env sched a).1 = inr s)
  ∧ (is_Some (os_makedirs env (arg_output_dir a)) ∨ (arg_workers a ≤ 0)%Z →
     ∃ e, (main_run env sched a).1 = inl e
          ∧ files (writer (main_run env sched a).2) = [])
  ∧ (length (files (writer (main_run env sched a).2)) ≤ 1)%nat
  ∧ ∀ h f, files (writer (main_run env sched a).2) !! h = Some f →
      f_path f
      = os_path_join (arg_output_dir a)
          (match arg_group_column a with
           | Some _ => "schema_results.csv"
           | None => "complex.csv"
           end)
      ∧ f_closed f = true.
Proof.
  intros Hcl Hcfg. unfold main_run.
  assert (Hg : ∀ r, group_value_of (main_options a) r = VStr "all").
  { intros r. unfold main_options.
    destruct Hcfg as [[-> ->]| ->]; done. }
  assert (Hdir : output_dir (main_options a) = arg_output_dir a).
  { unfold main_options. destruct (arg_group_column a); [done|].
    by destruct (arg_complex a). }
  destruct (single_group_run env sched (arg_workers a) [] (main_query a)
              (main_options a) cl (VStr "all") Hcl) as (Hs & Hraise & Hlen & Hf).
  { intros c _. apply Hg. }
  rewrite Hdir in Hs, Hraise.
  split; [done|]. split; [done|]. split; [done|]. intros h f Hhf.
  destruct (Hf h f Hhf) as [-> ?]. split; [|done].
  unfold main_options. destruct Hcfg as [[-> ->]| ->]; done.
Qed.



(** ** Rows and files *)

Section Files.
Variable open_error : string → option exn.
Variable o : options.




(** A file that the registry opened could be opened. *)
Lemma reaches_opened tr st c :
  reaches open_error o tr st → c ∈ tr →
  open_error (path_of o (call_group o c)) = None.
Proof.
  unfold reaches. remember empty_registry as st0 eqn:Hst0. intros Hs. revert c.
  induction Hs as [|st0 tr st1 s r st2 Hs IH Hw|st0 tr st1 s r e st2 Hs IH Hw];
    subst; intros c Hc.
  - by apply elem_of_nil in Hc.
  - apply elem_of_app in Hc as [Hc|Hc]; [by apply IH|].
    apply list_elem_of_singleton in Hc as ->.
    destruct (write_row_inv open_error o tr st1 s r (reaches_inv _ _ _ _ Hs))
      as [(st' & Hw' & _ & [[w Hk]|Hopen])|(e' & Hw' & _)]; [| done |congruence].
    pose proof (inv_groups _ _ _ (reaches_inv _ _ _ _ Hs) (group_value_of o r)) as Hg.
    destruct (written_to o (group_value_of o r) tr) as [|c0 cs] eqn:Hwt; simpl in Hg.
    + destruct Hg as (Hn & _). congruence.
    + assert (Hin : c0 ∈ written_to o (group_value_of o r) tr)
        by (rewrite Hwt; apply elem_of_cons; by left).
      unfold written_to in Hin. apply list_elem_of_filter in Hin as [Hcg Hin].
      unfold call_group at 1. simpl. rewrite <- Hcg. by apply IH.
  - by apply IH.
Qed.
End Files.


(** X8. Two group keys that differ but print alike (the number 1 and
    the text ['1'], [None] and the text ['None']) are two groups with
    two file objects, yet both files are opened on the same path. *)
Theorem colliding_keys_share_path open_error o tr st c1 c2 :
  reaches open_error o tr st →
  c1 ∈ tr → c2 ∈ tr →
  call_group o c1 ≠ call_group o c2 →
  py_str (call_group o c1) = py_str (call_group o c2) →
  ∃ h1 h2 f1 f2,
    h1 ≠ h2
    ∧ open_files st !! call_group o c1 = Some h1
    ∧ open_files st !! call_group o c2 = Some h2
    ∧ files st !! h1 = Some f1
    ∧ files st !! h2 = Some f2
    ∧ f_path f1 = f_path f2.
Proof.
  intros Hr H1 H2 Hne Hstr. pose proof (reaches_inv _ _ _ _ Hr) as Hinv.
  assert (Hk : ∀ c, c ∈ tr → ∃ h f, open_files st !! call_group o c = Some h
                               ∧ files st !! h = Some f
                               ∧ f_path f = path_of o (call_group o c)).
  { intros c Hc. pose proof (inv_groups _ _ _ Hinv (call_group o c)) as Hg.
    destruct (written_to o (call_group o c) tr) as [|c0 cs] eqn:Hwt; simpl in Hg.
    - assert (Hin : c ∈ written_to o (call_group o c) tr)
        by (unfold written_to; by apply list_elem_of_filter).
      rewrite Hwt in Hin. by apply elem_of_nil in Hin.
    - destruct Hg as (h & _ & _ & _ & Hof & Hf). eauto. }
  destruct (Hk c1 H1) as (h1 & f1 & Ho1 & Hf1 & Hp1).
  destruct (Hk c2 H2) as (h2 & f2 & Ho2 & Hf2 & Hp2).
  exists h1, h2, f1, f2. split.
  { intros ->. apply Hne. by eapply (inv_inj _ _ _ Hinv). }
  split; [done|]. split; [done|]. split; [done|]. split; [done|].
  rewrite Hp1, Hp2. unfold path_of, filename_of. by rewrite Hstr.
Qed.

(** X9. A source whose [k]-th row names a new group whose file cannot
    be opened: the rows before it are written, that row and the rows
    after it are not, and the source is counted twice, as a success and
    as an error, with the message of the exception in the error list. *)
Theorem process_future_open_failure open_error o t fut tr nm n data k r e :
  reaches open_error o tr (writer t) →
  fut_outcome fut = inr (Success nm n data) →
  data !! k = Some r →
  open_error (path_of o (group_value_of o r)) = Some e →
  (∀ j r', (j < k)%nat → data !! j = Some r' →
     open_error (path_of o (group_value_of o r')) = None) →
  ∃ st',
    process_future open_error o t fut
    = Tally (success_count t + 1) (error_count t + 1)
        (errors t ++ [Error (fut_schema fut) (exn_msg e)]) st'
    ∧ reaches open_error o (tr ++ (pair (fut_schema fut) <$> take k data)) st'.
Proof.
  intros Hr Ho Hk He Hbefore. unfold process_future. rewrite Ho.
  destruct (for_each_write_row open_error o (fut_schema fut) data tr (writer t) Hr)
    as (m & st' & res & Hfe & Hr' & Hres).
  rewrite Hfe.
  assert (Hnot : ∀ m', (k < m')%nat →
            ¬ reaches open_error o (tr ++ (pair (fut_schema fut) <$> take m' data)) st').
  { intros m' Hlt Hreach.
    assert (Hin : (fut_schema fut, r) ∈ tr ++ (pair (fut_schema fut) <$> take m' data)).
    { apply elem_of_app. right. apply list_elem_of_fmap. exists r. split; [done|].
      apply elem_of_take. exists k. done. }
    pose proof (reaches_opened open_error o _ _ _ Hreach Hin) as Hopen.
    unfold call_group in Hopen. simpl in Hopen. congruence. }
  destruct res as [e'|[]].
  - destruct Hres as (r' & Hr'm & He').
    destruct (lt_eq_lt_dec m k) as [[Hlt|Heq]|Hgt].
    + rewrite (Hbefore m r' Hlt Hr'm) in He'. done.
    + subst m. assert (r' = r) as -> by congruence.
      assert (e' = e) as -> by congruence. eauto.
    + by destruct (Hnot m Hgt).
  - subst m. destruct (Hnot (length data)); [by eapply lookup_lt_Some|done].
Qed.

(** X10. The two counts of a summary cover every source, and can
    overlap: [successful + failed] is at least the number of sources,
    and equal to it when every file opens. *)
Theorem counts_cover_sources env sched mw errs query o cl s :
  get_schema_credentials env = inr cl →
  (∀ l, as_completed sched l ≡ₚ l) →
  (fetch_all_schemas env sched mw errs query o).1 = inr s →
  (total_schemas s ≤ successful s + failed s)%nat
  ∧ ((∀ p, open_error env p = None) →
     successful s + failed s = total_schemas s).
Proof.
  intros Hcl Hperm Hs.
  destruct (fetch_all_schemas_returned env sched mw errs query o s Hs)
    as (cl' & Hcl' & Hmk & Hmw).
  destruct (fetch_all_schemas_unfold env sched mw errs query o cl Hcl Hmk Hmw) as [_ H1].
  rewrite H1 in Hs. clear H1.
  set (futs := as_completed sched (run_futures env sched query cl)) in *.
  destruct (log_group_counts _); [done|]. simplify_eq. simpl.
  assert (Hlen : length futs = length cl).
  { unfold futs. by rewrite Hperm, length_run_futures. }
  pose proof (succeeded_plus_failed futs) as Hsf.
  split.
  - destruct (loop_reaches (open_error env) o futs (Tally 0 0 errs empty_registry) [])
      as (tr & _ & Hsc); [apply steps_refl|].
    destruct (loop_sub (open_error env) o futs (Tally 0 0 errs empty_registry) [])
      as (tr' & _ & _ & Hec); [apply steps_refl|].
    simpl in *. lia.
  - intros Hok.
    destruct (loop_ok (open_error env) o futs (Tally 0 0 errs empty_registry) [] Hok)
      as (_ & Hsc & Hec & _); [apply steps_refl|].
    simpl in *. lia.
Qed.


(** ** The worker's entry in the table of active workers *)

(** X11. Whatever happens, [fetch_from_schema] ends with its own entry
    removed from the table of active workers; when the other workers
    leave the table alone, the table it leaves is the one it found minus
    that entry. *)
Theorem fetch_from_schema_cleans_up env others creds query now σ :
  (fetch_from_schema env others creds query now σ).2
    !! ("Worker-" +:+ database_name creds) = None
  ∧ ((∀ k t, others k t = t) →
     (fetch_from_schema env others creds query now σ).2
     = delete ("Worker-" +:+ database_name creds) σ).
Proof.
  unfold fetch_from_schema, try_except, bind, modify, interleave, clean_up,
    subscript, ret, raise, lift.
  set (tn := "Worker-" +:+ database_name creds).
  set (σ0 := <[tn := ThreadInfo (database_name creds) Connecting now]> σ).
  assert (Hdel : ∀ t, delete tn (<[tn := t]> σ) = delete tn σ)
    by (intros t; apply delete_insert_eq).
  destruct (pymysql_connect env creds) as [e|conn]; simpl.
  - destruct (is_pymysql_error e); simpl;
      (split; [apply lookup_delete_eq|]); intros Hid; rewrite ?Hid; apply Hdel.
  - destruct (others 0 σ0 !! tn) as [t|] eqn:Ht; simpl.
    2:{ split; [apply lookup_delete_eq|]. intros Hid. rewrite Hid. apply Hdel. }
    destruct (conn_execute conn query) as [e|cursor]; simpl.
    { split; [apply lookup_delete_eq|]. intros Hid. rewrite !Hid.
      rewrite delete_insert_eq. apply Hdel. }
    destruct (rs_description cursor) as [d|]; simpl.
    2:{ split; [apply lookup_delete_eq|]. intros Hid. rewrite !Hid.
        rewrite delete_insert_eq. apply Hdel. }
    destruct (rs_fetchall cursor) as [e|rows]; simpl.
    { split; [apply lookup_delete_eq|]. intros Hid. rewrite !Hid.
      rewrite delete_insert_eq. apply Hdel. }
    destruct (rs_close cursor) as [e|]; simpl.
    { split; [apply lookup_delete_eq|]. intros Hid. rewrite !Hid.
      rewrite delete_insert_eq. apply Hdel. }
    destruct (conn_close conn) as [e|]; simpl.
    { split; [apply lookup_delete_eq|]. intros Hid. rewrite !Hid.
      rewrite delete_insert_eq. apply Hdel. }
    split; [apply lookup_delete_eq|]. intros Hid. rewrite !Hid.
    rewrite delete_insert_eq. apply Hdel.
Qed.



(** ** The registry of sources *)

(** X13. [get_schema_credentials] returns one dictionary per row of the
    registry query, in the order of the rows, each binding the selected
    columns to the values of its row; it does so only when every step,
    the two [close] calls included, succeeds: an exception raised by
    [close] after the rows were fetched is raised to the caller and the
    list is lost. *)
Theorem get_schema_credentials_rows connect conn cursor columns rows :
  connect = inr conn →
  conn_execute conn Meta.query = inr cursor →
  rs_description cursor = Some columns →
  rs_fetchall cursor = inr rows →
  (rs_close cursor = None → conn_close conn = None →
   ∃ creds,
     Meta.get_schema_credentials connect = inr creds
     ∧ length creds = length rows
     ∧ ∀ i r, rows !! i = Some r →
         ∃ d, creds !! i = Some d
              ∧ (NoDup columns → length columns = length r →
                 ∀ j c v, columns !! j = Some c → r !! j = Some v → d !! c = Some v))
  ∧ (∀ e, rs_close cursor = Some e → Meta.get_schema_credentials connect = inl e)
  ∧ (∀ e, rs_close cursor = None → conn_close conn = Some e →
       Meta.get_schema_credentials connect = inl e).
Proof.
  intros -> Hex Hd Hf.
  unfold Meta.get_schema_credentials, try_except, bind, lift, ret, raise.
  rewrite Hex, Hd, Hf. simpl. split; [|split].
  - intros -> ->. simpl. eexists. split; [done|]. split; [by rewrite length_fmap|].
    intros i r Hr. eexists. split; [by rewrite list_lookup_fmap, Hr|].
    intros Hnd Hlen j c v Hc Hv. by eapply dict_of_pairs_zip.
  - by intros e ->.
  - by intros e -> ->.
Qed.

(** ** Per-schema statistics *)

Section StatsProps.
Variable int_of_str : string → option Z.

Lemma to_count_int v : ∃ z, Stats.to_count int_of_str v = VInt z.
Proof.
  destruct v as [|z|s]; simpl; eauto.
  destruct (int_of_str s); simpl; eauto.
Qed.

Lemma counts_get (d0 : row) schema k :
  k ≠ "schema" →
  dict_get (<["schema" := VStr schema]> (Stats.to_count int_of_str <$> d0)) k (VInt 0)
  = VInt (Stats.int_at (Stats.to_count int_of_str <$> d0) k).
Proof.
  intros Hk. unfold dict_get, Stats.int_at. rewrite lookup_insert_ne by done.
  rewrite lookup_fmap. destruct (d0 !! k) as [v|]; simpl; [|done].
  by destruct (to_count_int v) as [z ->].
Qed.

(** The row of a successful worker: the converted columns, then the
    schema name, then the sum. *)
Lemma worker_data env creds data :
  Stats.worker int_of_str env creds = Stats.StatsSuccess data →
  ∃ conn cur rows cols,
    pymysql_connect env creds = inr conn
    ∧ conn_execute conn Stats.stats_query = inr cur
    ∧ rs_fetchall cur = inr rows
    ∧ rs_description cur = Some cols
    ∧ data
      = let d := Stats.to_count int_of_str <$>
                   match head rows with
                   | None => dict_of_pairs ((λ c, (c, VInt 0)) <$> cols)
                   | Some r => dict_of_pairs (zip cols r)
                   end in
        <["sum_tests_and_cases" :=
            VInt (Stats.int_at d "tests_count" + Stats.int_at d "cases_copy_0"
                  + Stats.int_at d "cases_copy_1")]>
          (<["schema" := VStr (database_name creds)]> d).
Proof.
  unfold Stats.worker, bind, lift, ret, raise.
  destruct (pymysql_connect env creds) as [e|conn] eqn:Hc; simpl; [done|].
  destruct (conn_execute conn Stats.stats_query) as [e|cur] eqn:He; simpl; [done|].
  destruct (rs_fetchall cur) as [e|rows] eqn:Hf; simpl; [done|].
  destruct (rs_description cur) as [cols|] eqn:Hd; simpl; [|done].
  destruct (rs_close cur) as [e|]; simpl; [done|].
  destruct (conn_close conn) as [e|]; simpl; [done|].
  rewrite !counts_get by done. simpl.
  intros Heq. simplify_eq. by exists conn, cur, rows, cols.
Qed.

Lemma worker_ok env creds conn cur rows cols :
  pymysql_connect env creds = inr conn →
  conn_execute conn Stats.stats_query = inr cur →
  rs_fetchall cur = inr rows →
  rs_description cur = Some cols →
  rs_close cur = None →
  conn_close conn = None →
  ∃ data, Stats.worker int_of_str env creds = Stats.StatsSuccess data.
Proof.
  intros Hc He Hf Hd Hcl Hcc.
  unfold Stats.worker, bind, lift, ret, raise.
  rewrite Hc. simpl. rewrite He. simpl. rewrite Hf. simpl. rewrite Hd. simpl.
  rewrite Hcl. simpl. rewrite Hcc. simpl.
  rewrite !counts_get by done. simpl. eauto.
Qed.
End StatsProps.

(** X14. The row of a schema in the statistics: it carries the schema
    name under ['schema'] (a column of that name in the result is
    overwritten), a number under every other key, and under
    ['sum_tests_and_cases'] the sum of its ['tests_count'],
    ['cases_copy_0'] and ['cases_copy_1'], a missing one counting as 0;
    ['test_changes_count'] is not part of the sum. *)
Theorem stats_worker_row int_of_str env creds data :
  Stats.worker int_of_str env creds = Stats.StatsSuccess data →
  data !! "schema" = Some (VStr (database_name creds))
  ∧ (∀ k v, data !! k = Some v → k ≠ "schema" → ∃ z, v = VInt z)
  ∧ data !! "sum_tests_and_cases"
    = Some (VInt (Stats.int_at data "tests_count"
                  + Stats.int_at data "cases_copy_0"
                  + Stats.int_at data "cases_copy_1")).
Proof.
  intros Hw.
  destruct (worker_data int_of_str env creds data Hw)
    as (conn & cur & rows & cols & _ & _ & _ & _ & ->).
  set (d := Stats.to_count int_of_str <$> _). cbv zeta.
  split; [|split].
  - rewrite lookup_insert_ne by done. by rewrite lookup_insert_eq.
  - intros k v Hk Hne.
    destruct (decide (k = "sum_tests_and_cases")) as [->|Hns].
    + rewrite lookup_insert_eq in Hk. simplify_eq. eauto.
    + rewrite !lookup_insert_ne in Hk by done. unfold d in Hk.
      rewrite lookup_fmap in Hk.
      destruct (_ !! k) as [v0|]; simplify_eq/=. apply to_count_int.
  - rewrite lookup_insert_eq. unfold Stats.int_at.
    by rewrite !lookup_insert_ne by done.
Qed.

(** X15. Empty tables and NULLs count as 0: when the statistics query
    goes through, the worker succeeds; with an empty result every
    selected column is 0, and otherwise only the first row is read, NULL
    becoming 0, a number staying itself, and a text becoming the number
    it denotes, or 0 when it denotes none. *)
Theorem stats_worker_null_is_zero int_of_str env creds conn cur rows cols :
  pymysql_connect env creds = inr conn →
  conn_execute conn Stats.stats_query = inr cur →
  rs_fetchall cur = inr rows →
  rs_description cur = Some cols →
  rs_close cur = None →
  conn_close conn = None →
  NoDup cols →
  ∃ data,
    Stats.worker int_of_str env creds = Stats.StatsSuccess data
    ∧ ∀ i c, cols !! i = Some c → c ≠ "schema" → c ≠ "sum_tests_and_cases" →
        match head rows with
        | None => data !! c = Some (VInt 0)
        | Some r =>
            length cols = length r →
            ∀ v, r !! i = Some v →
              data !! c
              = Some (VInt match v with
                           | VNone => 0
                           | VInt z => z
                           | VStr s => default 0%Z (int_of_str s)
                           end)
        end.
Proof.
  intros Hc He Hf Hd Hcl Hcc Hnd.
  destruct (worker_ok int_of_str env creds conn cur rows cols Hc He Hf Hd Hcl Hcc)
    as [data Hw].
  exists data. split; [done|].
  destruct (worker_data int_of_str env creds data Hw)
    as (conn' & cur' & rows' & cols' & Hc' & He' & Hf' & Hd' & ->).
  assert (conn' = conn) as -> by congruence.
  assert (cur' = cur) as -> by congruence.
  assert (rows' = rows) as -> by congruence.
  assert (cols' = cols) as -> by congruence.
  intros i c Hi Hns Hnsum. cbv zeta.
  rewrite !lookup_insert_ne by done. rewrite lookup_fmap.
  destruct (head rows) as [r|].
  - intros Hlen v Hv. rewrite (dict_of_pairs_zip cols r i c v) by done. simpl.
    destruct v as [|z|s]; simpl; [done|done|]. by destruct (int_of_str s).
  - assert (Hin : dict_of_pairs ((λ c, (c, VInt 0)) <$> cols) !! c = Some (VInt 0)).
    { apply dict_of_pairs_elem.
      - rewrite <- list_fmap_compose. by rewrite list_fmap_id.
      - apply list_elem_of_fmap. exists c. split; [done|].
        apply list_elem_of_lookup. eauto. }
    by rewrite Hin.
Qed.


Section Sorting.
Context {A : Type} (key : A → value).

Lemma insert_by_Permutation x l : Stats.insert_by key x l ≡ₚ x :: l.
Proof.
  induction l as [|y l IH]; simpl; [done|].
  destruct (Stats.py_lt (key y) (key x)); [|done].
  rewrite IH. apply Permutation_swap.
Qed.

Lemma sort_Permutation l : foldr (Stats.insert_by key) [] l ≡ₚ l.
Proof.
  induction l as [|x l IH]; simpl; [done|].
  by rewrite insert_by_Permutation, IH.
Qed.

Lemma py_lt_asym a b : Stats.py_lt a b = true → Stats.py_lt b a = false.
Proof.
  destruct a as [|x|s], b as [|y|t]; simpl; try done.
  - intros H. apply Z.ltb_lt in H. apply Z.ltb_ge. lia.
  - intros H. apply negb_true_iff in H. apply negb_false_iff.
    destruct (String.leb s t) eqn:Hst; [done|].
    destruct (total String.le s t) as [Hle|Hle]; unfold String.le in Hle.
    + rewrite Hst in Hle. done.
    + rewrite H in Hle. done.
Qed.

Lemma insert_by_HdRel x y l :
  Stats.py_lt (key x) (key y) = false →
  HdRel (λ a b, Stats.py_lt (key b) (key a) = false) y l →
  HdRel (λ a b, Stats.py_lt (key b) (key a) = false) y (Stats.insert_by key x l).
Proof.
  intros Hxy Hhd. destruct l as [|z l]; simpl.
  - by constructor.
  - destruct (Stats.py_lt (key z) (key x)); constructor; [|done].
    by inversion Hhd.
Qed.

Lemma insert_by_Sorted x l :
  Sorted (λ a b, Stats.py_lt (key b) (key a) = false) l →
  Sorted (λ a b, Stats.py_lt (key b) (key a) = false) (Stats.insert_by key x l).
Proof.
  induction 1 as [|y l Hs IH Hhd]; simpl.
  - by repeat constructor.
  - destruct (Stats.py_lt (key y) (key x)) eqn:Hyx.
    + constructor; [done|]. apply insert_by_HdRel; [|done]. by apply py_lt_asym.
    + constructor; [by constructor|]. by constructor.
Qed.

Lemma sort_Sorted l :
  Sorted (λ a b, Stats.py_lt (key b) (key a) = false)
    (foldr (Stats.insert_by key) [] l).
Proof.
  induction l as [|x l IH]; simpl; [constructor|]. by apply insert_by_Sorted.
Qed.

Lemma texts_Sorted rs :
  Forall (λ x, ∃ s, key x = VStr s) rs →
  Sorted (λ a b, Stats.py_lt (key b) (key a) = false) rs →
  ∃ names, key <$> rs = VStr <$> names ∧ Sorted String.le names.
Proof.
  intros Hall Hsorted. induction Hsorted as [|x rs Hs IH Hhd].
  - exists []. split; [done|]. constructor.
  - apply Forall_cons in Hall as [[s Hx] Hall].
    destruct (IH Hall) as (names & Hk & Hn).
    exists (s :: names). rewrite !fmap_cons, Hx, Hk. split; [done|].
    constructor; [done|].
    destruct Hhd as [|y rs Hxy]; destruct names as [|t names]; simplify_eq/=.
    + constructor.
    + constructor. rewrite Hx in Hxy. simpl in Hxy.
      match goal with H : key y = VStr _ |- _ => rewrite H in Hxy end.
      simpl in Hxy. apply negb_false_iff in Hxy. unfold String.le. by rewrite Hxy.
Qed.

(** Text keys can always be sorted, and come out in increasing order. *)
Lemma sorted_by_texts l :
  Forall (λ x, ∃ s, key x = VStr s) l →
  ∃ rs names,
    Stats.sorted_by key l = inr rs
    ∧ rs ≡ₚ l
    ∧ key <$> rs = VStr <$> names
    ∧ Sorted String.le names.
Proof.
  intros Hall. unfold Stats.sorted_by.
  assert (Hcmp : Stats.comparable (key <$> l) = true).
  { destruct l as [|x [|y l]]; [done|done|].
    apply Forall_cons in Hall as [[s Hs] Hall]. simpl. rewrite Hs. simpl.
    apply andb_true_iff. split.
    - apply Forall_cons in Hall as [[t ->] _]. done.
    - apply forallb_forall. intros w Hw. apply list_elem_of_In in Hw.
      apply list_elem_of_fmap in Hw as (z & -> & Hz).
      rewrite Forall_forall in Hall.
      destruct (Hall z) as [t ->]; [by apply elem_of_cons; right|]. done. }
  rewrite Hcmp.
  assert (Hperm : foldr (Stats.insert_by key) [] l ≡ₚ l) by apply sort_Permutation.
  destruct (texts_Sorted (foldr (Stats.insert_by key) [] l)) as (names & Hk & Hn).
  { by rewrite Hperm. }
  { apply sort_Sorted. }
  eauto 10.
Qed.
End Sorting.

Lemma length_omap_filter (l : list Stats.stats_result) :
  length (omap Stats.success_data l)
  + length (filter (λ res, Stats.success_data res = None) l) = length l.
Proof.
  induction l as [|[d|e s] l IH]; [done|..]; rewrite filter_cons.
  - rewrite decide_False by done. simpl. f_equal. exact IH.
  - rewrite decide_True by done. simpl. rewrite Nat.add_succ_r. f_equal. exact IH.
Qed.

(** X16. The statistics file: once the list of sources is obtained,
    [collect_stats] (and [fetch_stats_all_schemas]) returns when the
    pool size is positive, the output directory can be created and the
    file opens, and otherwise raises without leaving a file. When it
    returns, every source is either collected or listed as an error; the
    file holds the fixed header and one line of six cells per collected
    schema, the lines in increasing order of the schema name whatever the
    order of completion, and it is closed. *)
Theorem collect_stats_file int_of_str env order workers out_dir out_file cl :
  get_schema_credentials env = inr cl →
  (∀ l, order l ≡ₚ l) →
  ((0 < workers)%Z →
   os_makedirs env out_dir = None →
   open_error env (os_path_join out_dir out_file) = None →
   ∃ s f rs names,
     Stats.collect_stats int_of_str env order workers out_dir out_file
       = (inr s, Some f)
     ∧ Stats.fetch_stats_all_schemas int_of_str env order workers out_dir out_file
       = (inr s, Some f)
     ∧ Stats.total s = length cl
     ∧ Stats.collected s + length (Stats.stats_errors s) = length cl
     ∧ Stats.output_file s = os_path_join out_dir out_file
     ∧ f = File (os_path_join out_dir out_file)
             (header_line Stats.fieldnames :: (Stats.cells <$> rs)) true
     ∧ length rs = Stats.collected s
     ∧ rs ≡ₚ omap Stats.success_data (Stats.worker int_of_str env <$> cl)
     ∧ (λ r, head (Stats.cells r)) <$> rs = (λ n, Some (VStr n)) <$> names
     ∧ Sorted String.le names)
  ∧ ((workers ≤ 0)%Z ∨ is_Some (os_makedirs env out_dir)
     ∨ is_Some (open_error env (os_path_join out_dir out_file)) →
     ∃ e, Stats.collect_stats int_of_str env order workers out_dir out_file
          = (inl e, None)).
Proof.
  intros Hcl Hperm. split.
  - intros Hw Hmk Hopen. apply thread_pool_positive in Hw.
    unfold Stats.fetch_stats_all_schemas, Stats.collect_stats.
    rewrite Hcl, Hw, Hmk, Hopen.
    set (done := order (Stats.worker int_of_str env <$> cl)).
    assert (Hall : Forall (λ x : row, ∃ s, dict_get x "schema" VNone = VStr s)
                     (omap Stats.success_data done)).
    { apply Forall_forall. intros d Hd.
      apply list_elem_of_omap in Hd as (res & Hres & Hd).
      unfold done in Hres. rewrite Hperm in Hres.
      apply list_elem_of_fmap in Hres as (creds & -> & _).
      destruct (Stats.worker int_of_str env creds) as [d'|] eqn:Hwk; simplify_eq/=.
      destruct (worker_data int_of_str env creds d Hwk)
        as (conn & cur & rows & cols & _ & _ & _ & _ & ->).
      exists (database_name creds). cbv zeta. unfold dict_get.
      rewrite lookup_insert_ne by done. by rewrite lookup_insert_eq. }
    destruct (sorted_by_texts (λ x : row, dict_get x "schema" VNone) _ Hall)
      as (rs & names & -> & Hrs & Hkeys & Hsorted).
    eexists _, _, rs, names. split; [done|]. split; [done|]. simpl.
    split; [done|]. split.
    { rewrite length_omap_filter. unfold done. by rewrite Hperm, length_fmap. }
    split; [done|]. split; [done|]. split; [by rewrite Hrs|]. split.
    { rewrite Hrs. unfold done. by rewrite Hperm. }
    split; [|done].
    revert Hkeys. generalize names. clear.
    induction rs as [|r rs IH]; intros [|n names] Hk; simplify_eq/=; [done|].
    f_equal; [|by apply IH].
    unfold Stats.cells. simpl. unfold dict_get in *.
    destruct (r !! "schema") as [v|]; simpl in *; congruence.
  - intros Hor. unfold Stats.collect_stats. rewrite Hcl.
    destruct (thread_pool workers) as [e|] eqn:Hp; [eauto|].
    apply thread_pool_positive in Hp.
    destruct (os_makedirs env out_dir) as [e|]; [eauto|].
    destruct (open_error env (os_path_join out_dir out_file)) as [e|]; [eauto|].
    destruct Hor as [?|[[e ?]|[e ?]]]; [lia|done|done].
Qed.


(** ** The replay path, the command line and the statistics at concrete runs *)

Lemma save_results_replays_run_witness :
  (∀ l, as_completed Scenario.reversed l ≡ₚ l)
  ∧ (∀ p, open_error (Scenario.world ["a"; "b"; "zz"; "c"] Scenario.any_path) p = None)
  ∧ save_results (Scenario.world ["a"; "b"; "zz"; "c"] Scenario.any_path)
      (Cases.with_results
         (results_in_order
            (completed (Scenario.world ["a"; "b"; "zz"; "c"] Scenario.any_path)
               Scenario.reversed 10 Scenario.query Scenario.by_year)))
      Scenario.by_year
    = (inr tt,
       writer (fetch_all_schemas
                 (Scenario.world ["a"; "b"; "zz"; "c"] Scenario.any_path)
                 Scenario.reversed 10 [] Scenario.query Scenario.by_year).2).
Proof.
  assert (Hperm : ∀ l : list future, as_completed Scenario.reversed l ≡ₚ l)
    by (intros l; apply reverse_Permutation).
  assert (Hok : ∀ p, open_error (Scenario.world ["a"; "b"; "zz"; "c"] Scenario.any_path) p
                     = None) by (intros p; reflexivity).
  split; [exact Hperm|]. split; [exact Hok|].
  apply (save_results_replays_run
           (Scenario.world ["a"; "b"; "zz"; "c"] Scenario.any_path)
           Scenario.reversed 10 [] Scenario.query Scenario.by_year _ Hperm Hok).
  apply lookup_insert_eq.
Defined.

Lemma save_results_open_failure_witness :
  Cases.with_results Cases.slash_results !! "results"
    = Some (PList Cases.slash_results)
  ∧ (save_results (Scenario.world ["slash"] Scenario.flat_dir)
       (Cases.with_results Cases.slash_results) Scenario.by_year).1 = inr tt.
Proof.
  assert (Hs : Cases.with_results Cases.slash_results !! "results"
               = Some (PList Cases.slash_results)) by apply lookup_insert_eq.
  split; [exact Hs|].
  exact (proj1 (save_results_open_failure (Scenario.world ["slash"] Scenario.flat_dir)
                  Scenario.by_year (Cases.with_results Cases.slash_results)
                  Cases.slash_results Hs)).
Defined.

Lemma ungrouped_run_single_file_witness :
  get_schema_credentials (Scenario.world ["a"; "b"; "zz"; "c"] Scenario.any_path)
    = inr (Scenario.source <$> ["a"; "b"; "zz"; "c"])
  ∧ truthy (single_file_name Scenario.ungrouped)
    || negb (truthy (group_column Scenario.ungrouped)) = true
  ∧ ∃ s, (fetch_all_schemas (Scenario.world ["a"; "b"; "zz"; "c"] Scenario.any_path)
            Scenario.reversed 10 [] Scenario.query Scenario.ungrouped).1 = inr s.
Proof.
  split; [reflexivity|]. split; [reflexivity|].
  apply (proj1 (ungrouped_run_single_file
                  (Scenario.world ["a"; "b"; "zz"; "c"] Scenario.any_path)
                  Scenario.reversed 10 [] Scenario.query Scenario.ungrouped
                  (Scenario.source <$> ["a"; "b"; "zz"; "c"]) eq_refl eq_refl));
    reflexivity.
Defined.

Lemma main_single_file_witness :
  get_schema_credentials (Scenario.world ["a"; "b"; "zz"; "c"] Scenario.any_path)
    = inr (Scenario.source <$> ["a"; "b"; "zz"; "c"])
  ∧ ((arg_group_column Cases.complex_run = None ∧ arg_complex Cases.complex_run = true)
     ∨ arg_group_column Cases.complex_run = Some "")
  ∧ ∃ s, (main_run (Scenario.world ["a"; "b"; "zz"; "c"] Scenario.any_path)
            Scenario.reversed Cases.complex_run).1 = inr s.
Proof.
  assert (Hcfg : (arg_group_column Cases.complex_run = None
                  ∧ arg_complex Cases.complex_run = true)
                 ∨ arg_group_column Cases.complex_run = Some "")
    by (left; split; reflexivity).
  split; [reflexivity|]. split; [exact Hcfg|].
  apply (proj1 (main_single_file
                  (Scenario.world ["a"; "b"; "zz"; "c"] Scenario.any_path)
                  Scenario.reversed Cases.complex_run
                  (Scenario.source <$> ["a"; "b"; "zz"; "c"]) eq_refl Hcfg));
    reflexivity.
Defined.



Lemma colliding_keys_share_path_witness :
  reaches Scenario.any_path Scenario.by_year
    [("a", Cases.row_int_1); ("b", Cases.row_str_1)] Cases.after_both
  ∧ call_group Scenario.by_year ("a", Cases.row_int_1)
    ≠ call_group Scenario.by_year ("b", Cases.row_str_1)
  ∧ py_str (call_group Scenario.by_year ("a", Cases.row_int_1))
    = py_str (call_group Scenario.by_year ("b", Cases.row_str_1))
  ∧ ∃ h1 h2 f1 f2,
      h1 ≠ h2
      ∧ files Cases.after_both !! h1 = Some f1
      ∧ files Cases.after_both !! h2 = Some f2
      ∧ f_path f1 = f_path f2.
Proof.
  assert (Hr : reaches Scenario.any_path Scenario.by_year
                 [("a", Cases.row_int_1); ("b", Cases.row_str_1)] Cases.after_both).
  { refine (steps_ok _ _ _ [("a", Cases.row_int_1)] _ _ _ _ _ _).
    - refine (steps_ok _ _ _ [] _ _ _ _ (steps_refl _ _ _) _).
      vm_compute. reflexivity.
    - vm_compute. reflexivity. }
  assert (Hne : call_group Scenario.by_year ("a", Cases.row_int_1)
                ≠ call_group Scenario.by_year ("b", Cases.row_str_1))
    by (vm_compute; discriminate).
  assert (Hstr : py_str (call_group Scenario.by_year ("a", Cases.row_int_1))
                 = py_str (call_group Scenario.by_year ("b", Cases.row_str_1)))
    by (vm_compute; reflexivity).
  split; [exact Hr|]. split; [exact Hne|]. split; [exact Hstr|].
  destruct (colliding_keys_share_path Scenario.any_path Scenario.by_year
              [("a", Cases.row_int_1); ("b", Cases.row_str_1)] Cases.after_both
              ("a", Cases.row_int_1) ("b", Cases.row_str_1) Hr)
    as (h1 & h2 & f1 & f2 & Hh & _ & _ & Hf1 & Hf2 & Hp);
    [apply elem_of_cons; by left
    |apply elem_of_cons; right; apply elem_of_cons; by left
    |exact Hne|exact Hstr|].
  exists h1, h2, f1, f2. split; [exact Hh|]. split; [exact Hf1|].
  split; [exact Hf2|exact Hp].
Defined.

Lemma process_future_open_failure_witness :
  reaches Scenario.flat_dir Scenario.by_year [] (writer (Tally 0 0 [] empty_registry))
  ∧ fut_outcome Cases.slash_future = inr (Success "slash" 3 Cases.slash_rows)
  ∧ Cases.slash_rows !! 1 = Some Cases.bad_row
  ∧ Scenario.flat_dir
      (path_of Scenario.by_year (group_value_of Scenario.by_year Cases.bad_row))
    = Some Cases.slash_error
  ∧ (∀ j r', (j < 1)%nat → Cases.slash_rows !! j = Some r' →
       Scenario.flat_dir (path_of Scenario.by_year (group_value_of Scenario.by_year r'))
       = None)
  ∧ ∃ st',
      process_future Scenario.flat_dir Scenario.by_year (Tally 0 0 [] empty_registry)
        Cases.slash_future
      = Tally 1 1 [Error "slash" (exn_msg Cases.slash_error)] st'.
Proof.
  assert (Hr : reaches Scenario.flat_dir Scenario.by_year []
                 (writer (Tally 0 0 [] empty_registry))) by apply steps_refl.
  assert (He : Scenario.flat_dir
                 (path_of Scenario.by_year
                    (group_value_of Scenario.by_year Cases.bad_row))
               = Some Cases.slash_error) by (vm_compute; reflexivity).
  assert (Hbefore : ∀ j r', (j < 1)%nat → Cases.slash_rows !! j = Some r' →
            Scenario.flat_dir
              (path_of Scenario.by_year (group_value_of Scenario.by_year r')) = None).
  { intros [|j] r' Hj Hr'; [|lia]. simpl in Hr'. injection Hr' as <-.
    vm_compute. reflexivity. }
  split; [exact Hr|]. split; [reflexivity|]. split; [reflexivity|].
  split; [exact He|]. split; [exact Hbefore|].
  destruct (process_future_open_failure Scenario.flat_dir Scenario.by_year
              (Tally 0 0 [] empty_registry) Cases.slash_future [] "slash" 3
              Cases.slash_rows 1 Cases.bad_row Cases.slash_error
              Hr eq_refl eq_refl He Hbefore) as (st' & Hp & _).
  exists st'. exact Hp.
Defined.

Lemma counts_cover_sources_witness :
  get_schema_credentials (Scenario.world ["a"; "b"; "zz"; "c"] Scenario.any_path)
    = inr (Scenario.source <$> ["a"; "b"; "zz"; "c"])
  ∧ (∀ l, as_completed Scenario.reversed l ≡ₚ l)
  ∧ (fetch_all_schemas (Scenario.world ["a"; "b"; "zz"; "c"] Scenario.any_path)
       Scenario.reversed 10 [] Scenario.query Scenario.by_year).1
    = inr (RunSummary 4 3 1 1500000 3
             [Error "zz" "Connection timeout after 15s: (1045, 'Access denied')"])
  ∧ (4 ≤ 3 + 1)%nat.
Proof.
  assert (Hperm : ∀ l : list future, as_completed Scenario.reversed l ≡ₚ l)
    by (intros l; apply reverse_Permutation).
  assert (Hs : (fetch_all_schemas
                  (Scenario.world ["a"; "b"; "zz"; "c"] Scenario.any_path)
                  Scenario.reversed 10 [] Scenario.query Scenario.by_year).1
               = inr (RunSummary 4 3 1 1500000 3
                        [Error "zz" "Connection timeout after 15s: (1045, 'Access denied')"]))
    by (vm_compute; reflexivity).
  split; [reflexivity|]. split; [exact Hperm|]. split; [exact Hs|].
  exact (proj1 (counts_cover_sources
                  (Scenario.world ["a"; "b"; "zz"; "c"] Scenario.any_path)
                  Scenario.reversed 10 [] Scenario.query Scenario.by_year
                  (Scenario.source <$> ["a"; "b"; "zz"; "c"]) _ eq_refl Hperm Hs)).
Defined.


Lemma get_schema_credentials_rows_witness :
  conn_execute Cases.meta_conn Meta.query = inr Cases.meta_cursor
  ∧ rs_description Cases.meta_cursor = Some Cases.meta_columns
  ∧ rs_fetchall Cases.meta_cursor = inr Cases.meta_rows
  ∧ ∃ creds,
      Meta.get_schema_credentials (inr Cases.meta_conn) = inr creds
      ∧ length creds = length Cases.meta_rows.
Proof.
  split; [reflexivity|]. split; [reflexivity|]. split; [reflexivity|].
  destruct (proj1 (get_schema_credentials_rows (inr Cases.meta_conn) Cases.meta_conn
                     Cases.meta_cursor Cases.meta_columns Cases.meta_rows
                     eq_refl eq_refl eq_refl eq_refl) eq_refl eq_refl)
    as (creds & Hc & Hl & _).
  exists creds. split; [exact Hc|exact Hl].
Defined.

Lemma stats_worker_row_witness :
  Stats.worker Cases.no_int (Cases.stats_world ["a"; "zz"; "b"]) (Scenario.source "a")
    = Stats.StatsSuccess Cases.stats_row_a
  ∧ Cases.stats_row_a !! "schema" = Some (VStr "a").
Proof.
  assert (Hw : Stats.worker Cases.no_int (Cases.stats_world ["a"; "zz"; "b"])
                 (Scenario.source "a") = Stats.StatsSuccess Cases.stats_row_a)
    by (vm_compute; reflexivity).
  split; [exact Hw|].
  exact (proj1 (stats_worker_row Cases.no_int (Cases.stats_world ["a"; "zz"; "b"])
                  (Scenario.source "a") Cases.stats_row_a Hw)).
Defined.

Lemma stats_worker_null_is_zero_witness :
  pymysql_connect (Cases.stats_world ["a"; "zz"; "b"]) (Scenario.source "a")
    = inr Cases.stats_conn
  ∧ conn_execute Cases.stats_conn Stats.stats_query = inr Cases.stats_cursor
  ∧ rs_fetchall Cases.stats_cursor = inr [[VNone; VNone; VInt 4; VInt 9]]
  ∧ rs_description Cases.stats_cursor = Some Cases.stats_columns
  ∧ rs_close Cases.stats_cursor = None
  ∧ conn_close Cases.stats_conn = None
  ∧ NoDup Cases.stats_columns
  ∧ ∃ data,
      Stats.worker Cases.no_int (Cases.stats_world ["a"; "zz"; "b"])
        (Scenario.source "a") = Stats.StatsSuccess data.
Proof.
  assert (Hnd : NoDup Cases.stats_columns)
    by (apply (bool_decide_unpack _); vm_compute; exact I).
  split; [reflexivity|]. split; [reflexivity|]. split; [reflexivity|].
  split; [reflexivity|]. split; [reflexivity|]. split; [reflexivity|].
  split; [exact Hnd|].
  destruct (stats_worker_null_is_zero Cases.no_int (Cases.stats_world ["a"; "zz"; "b"])
              (Scenario.source "a") Cases.stats_conn Cases.stats_cursor
              [[VNone; VNone; VInt 4; VInt 9]] Cases.stats_columns
              eq_refl eq_refl eq_refl eq_refl eq_refl eq_refl Hnd)
    as (data & Hw & _).
  exists data. exact Hw.
Defined.

Lemma collect_stats_file_witness :
  get_schema_credentials (Cases.stats_world ["a"; "zz"; "b"])
    = inr (Scenario.source <$> ["a"; "zz"; "b"])
  ∧ (∀ l : list Stats.stats_result, reverse l ≡ₚ l)
  ∧ ∃ s f,
      Stats.collect_stats Cases.no_int (Cases.stats_world ["a"; "zz"; "b"]) reverse
        10 "out" "schema_stats.csv" = (inr s, Some f).
Proof.
  assert (Hperm : ∀ l : list Stats.stats_result, reverse l ≡ₚ l)
    by (intros l; apply reverse_Permutation).
  split; [reflexivity|]. split; [exact Hperm|].
  destruct (proj1 (collect_stats_file Cases.no_int (Cases.stats_world ["a"; "zz"; "b"])
                     reverse 10 "out" "schema_stats.csv"
                     (Scenario.source <$> ["a"; "zz"; "b"]) eq_refl Hperm)
              eq_refl eq_refl eq_refl)
    as (s & f & rs & names & Hc & _).
  exists s, f. exact Hc.
Defined.

(** The statistics of three schemas, one of which refuses the login:
    two lines, by schema name, NULL sums as 0. *)
Example stats_of_two_schemas :
  Stats.collect_stats Cases.no_int (Cases.stats_world ["a"; "zz"; "b"]) reverse
    10 "out" "schema_stats.csv"
  = (inr (Stats.StatsSummary 3 2 [Stats.StatsError "(1045, 'Access denied')" "zz"]
            "out/schema_stats.csv"),
     Some (File "out/schema_stats.csv"
             [ VStr <$> Stats.fieldnames;
               [VStr "a"; VInt 0; VInt 0; VInt 4; VInt 9; VInt 4];
               [VStr "b"; VInt 0; VInt 0; VInt 4; VInt 9; VInt 4] ]
             true)).
Proof. vm_compute. reflexivity. Qed.

(** The setup steps at the edges: no worker, and no output directory. *)
Example run_without_workers :
  fetch_all_schemas (Scenario.world ["a"; "b"; "zz"; "c"] Scenario.any_path)
    Scenario.reversed 0 [] Scenario.query Scenario.by_year
  = (inl (Exn OtherException "max_workers must be greater than 0"),
     Tally 0 0 [] empty_registry).
Proof. vm_compute. reflexivity. Qed.

Example run_without_output_dir :
  fetch_all_schemas (Scenario.world ["a"; "b"; "zz"; "c"] Scenario.any_path)
    Scenario.reversed 10 [] Scenario.query (Options (Some "y") "" None)
  = (inl (Exn OSError "[Errno 2] No such file or directory: ''"),
     Tally 0 0 [] empty_registry).
Proof. vm_compute. reflexivity. Qed.

